(** * k-out-of-n reliability: the classical benchmark and the statistics of
      [run_simulation] (qiskit_koon_mcx.py)

    The Python program computes with binary64 floats.  The functions below are
    written once, over an interface [Arith] of the arithmetic they use, and
    are read at three instances:

    - [Binary64.float_arith]: the kernel's IEEE 754 binary64 numbers, which is
      the arithmetic the Python interpreter runs;
    - [Rational.Qc_arith]: the rationals in normal form, where no operation
      rounds.  Every finite float is a rational, so this instance gives the
      value the same computation has without rounding;
    - [Real.R_arith]: the real numbers, exact as well, with square roots.

    What depends only on the order of the loops holds at every instance; what
    depends on the laws of a commutative ring is proved under [ExactArith],
    and what depends on the order under [OrderedArith].  Where binary64
    departs from the exact value, the departure is computed.

    [reliability_circuit_variable_p] is the list of the instructions it
    appends to its circuit; its X and multi-controlled X gates are read on
    the states of the computational basis.

    [run_simulation] returns its record or raises: [ValueError] from the
    construction of the circuit when the threshold is negative,
    [ZeroDivisionError] from the division of a count by zero shots.  The
    simulator, numpy and scipy are an interface [External]; [Recorded] holds
    their binary64 values at the arguments of the examples.  The order of
    binary64 sums and differences is derived from the specification of the
    primitive floats ([SpecFloat]). *)

From Stdlib Require Import List ZArith Lia Bool FinFun Ring Ring_theory.
From Stdlib Require Import QArith Qabs Qcanon.
From Stdlib Require Import Reals Lra.
From Stdlib Require Import Floats.
From Stdlib Require Import Permutation.
Import ListNotations.

Close Scope R_scope.
Close Scope Qc_scope.
Close Scope Q_scope.
Close Scope float_scope.
Open Scope nat_scope.

Set Warnings "-inexact-float".

(* ================================================================== *)
(** ** The arithmetic the program uses *)

Class Arith (num : Type) : Type := {
  zero : num;                       (* 0.0 *)
  one : num;                        (* 1.0 *)
  add : num -> num -> num;          (* x + y *)
  sub : num -> num -> num;          (* x - y *)
  mul : num -> num -> num;          (* x * y *)
  div : num -> num -> num;          (* x / y *)
  absolute : num -> num;            (* abs(x) *)
  of_int : Z -> num;                (* an integer literal or an int operand *)
  is_zero : num -> bool;            (* x == 0 *)
  le : num -> num -> Prop           (* x <= y *)
}.

Declare Scope arith_scope.
Delimit Scope arith_scope with arith.
Infix "+" := add : arith_scope.
Infix "-" := sub : arith_scope.
Infix "*" := mul : arith_scope.
Infix "/" := div : arith_scope.
Infix "<=" := le : arith_scope.

(* ================================================================== *)
(** ** itertools.product(pool, repeat=n)

    The documented algorithm: [result = [[]]], and for each of the [n]
    positions [result = [x + [y] for x in result for y in pool]]. *)

Section Product.
Context {A : Type}.

Definition extend (pool : list A) (result : list (list A)) : list (list A) :=
  flat_map (fun x => map (fun y => x ++ [y]) pool) result.

Fixpoint product (pool : list A) (n : nat) : list (list A) :=
  match n with
  | O => [[]]
  | S m => extend pool (product pool m)
  end.
End Product.

(** Python's [sum] over a tuple of ints. *)
Definition sum (bits : list Z) : Z := fold_left Z.add bits 0%Z.

(* ================================================================== *)
(** ** k_out_of_n_variable_p_reliability *)

Section Reliability.
Context {num : Type} {AR : Arith num}.
Local Open Scope arith_scope.

(** [p_i if bit == 1 else (1 - p_i)] *)
Definition factor (bit : Z) (p_i : num) : num :=
  if (bit =? 1)%Z then p_i else one - p_i.

(** The inner loop: [prob = 1.0; for bit, p_i in zip(bits, p_list): prob *= ...]. *)
Definition assignment_prob (bits : list Z) (p_list : list num) : num :=
  fold_left (fun prob (bp : Z * num) => prob * factor (fst bp) (snd bp))
            (combine bits p_list) one.

(** One iteration of the outer loop. *)
Definition accumulate (p_list : list num) (k : Z) (total_prob : num)
           (bits : list Z) : num :=
  if (sum bits >=? k)%Z
  then total_prob + assignment_prob bits p_list
  else total_prob.

Definition k_out_of_n_variable_p_reliability (p_list : list num) (k : Z) : num :=
  let n := length p_list in
  fold_left (accumulate p_list k) (product [0%Z; 1%Z] n) zero.

(* ---------------------------------------------------------------- *)
(** *** The specification's reading: a sum over success/failure assignments *)

(** All assignments of [n] components, failure before success, the first
    component varying slowest. *)
Fixpoint assignments (n : nat) : list (list bool) :=
  match n with
  | O => [[]]
  | S m => map (cons false) (assignments m) ++ map (cons true) (assignments m)
  end.

(** Number of successes of an assignment. *)
Definition ones (a : list bool) : nat := count_occ bool_dec a true.

(** Terms are added, and factors multiplied, in the order they are listed. *)
Definition sum_of (terms : list num) : num := fold_left add terms zero.
Definition product_of (factors : list num) : num := fold_left mul factors one.

(** Probability mass of one assignment. *)
Definition mass (p_list : list num) (a : list bool) : num :=
  product_of (map (fun bp : bool * num => if fst bp then snd bp else one - snd bp)
                  (combine a p_list)).

Definition reliability_spec (p_list : list num) (k : Z) : num :=
  sum_of (map (mass p_list)
              (filter (fun a => (k <=? Z.of_nat (ones a))%Z)
                      (assignments (length p_list)))).

(** [p^n]; the vector of [n] copies of [p] is [repeat p n]. *)
Fixpoint power (p : num) (n : nat) : num :=
  match n with
  | O => one
  | S m => p * power p m
  end.

End Reliability.

(* ================================================================== *)
(** ** reliability_circuit_variable_p

    The circuit is the list of the instructions the function appends to its
    [QuantumCircuit], in order.  What Qiskit does with them (transpiling,
    simulating) is outside the program. *)

(** itertools.combinations(pool, r) for [r >= 0]: the subsequences of length
    [r], in lexicographic order of the positions. *)
Fixpoint subsequences {A : Type} (pool : list A) (r : nat) : list (list A) :=
  match r, pool with
  | O, _ => [[]]
  | S _, [] => []
  | S r', y :: rest => map (cons y) (subsequences rest r') ++ subsequences rest r
  end.

(** itertools.combinations(pool, r): [None] is the ValueError
    "r must be non-negative", raised when the call is made. *)
Definition combinations {A : Type} (pool : list A) (r : Z) : option (list (list A)) :=
  if (r <? 0)%Z then None else Some (subsequences pool (Z.to_nat r)).

(** range(n) and range(start, stop). *)
Definition range (n : nat) : list nat := seq 0 n.

Definition range_from (start stop : Z) : list Z :=
  map (fun i => (start + Z.of_nat i)%Z) (seq 0 (Z.to_nat (stop - start))).

(** A qubit of the two quantum registers: [q_components[i]] or [q_out[0]]. *)
Inductive qubit : Type :=
| q_components (i : nat)
| q_out.

Inductive instruction (num : Type) : Type :=
| Ry (theta : num) (q : qubit)                    (* qc.ry(theta, q) *)
| X (q : qubit)                                   (* qc.x(q) *)
| Mcx (controls : list qubit) (target : qubit)    (* qc.mcx(controls, target) *)
| Measure.                                        (* qc.measure(q_out, c_out) *)
Arguments Ry {num}.
Arguments X {num}.
Arguments Mcx {num}.
Arguments Measure {num}.

(** numpy's arcsin and sqrt on a float. *)
Class Encoding (num : Type) : Type := {
  np_arcsin : num -> num;
  np_sqrt_float : num -> num
}.

(** A loop whose body may raise: the instructions appended so far are lost
    with the circuit when it does. *)
Fixpoint for_each {A B : Type} (body : A -> option (list B)) (items : list A)
  : option (list B) :=
  match items with
  | [] => Some []
  | item :: rest =>
      match body item with
      | None => None
      | Some appended => option_map (app appended) (for_each body rest)
      end
  end.

Section Circuit.
Context {num : Type} {AR : Arith num} {EN : Encoding num}.
Local Open Scope arith_scope.

(** The loop [for i, p_i in enumerate(p_list)]. *)
Definition encode (p_list : list num) : list (instruction num) :=
  map (fun ip : nat * num =>
         let theta := of_int 2 * np_arcsin (np_sqrt_float (snd ip)) in
         Ry theta (q_components (fst ip)))
      (combine (range (length p_list)) p_list).

(** The body of [for success_subset in combinations(range(n), r)]. *)
Definition block (n : nat) (success_subset : list nat) : list (instruction num) :=
  let fail_subset :=
    filter (fun i => negb (existsb (Nat.eqb i) success_subset)) (range n) in
  map (fun f => X (q_components f)) fail_subset
  ++ [Mcx (map q_components (range n)) q_out]
  ++ map (fun f => X (q_components f)) fail_subset.

(** The loop [for r in range(k, n + 1)]. *)
Definition logic (n : nat) (k : Z) : option (list (instruction num)) :=
  for_each (fun r => option_map (flat_map (block n)) (combinations (range n) r))
           (range_from k (Z.of_nat n + 1)).

Definition reliability_circuit_variable_p (p_list : list num) (k : Z)
  : option (list (instruction num)) :=
  let n := length p_list in
  match logic n k with
  | None => None
  | Some gates => Some (encode p_list ++ gates ++ [Measure])
  end.
End Circuit.

(** *** The gates on the states of the computational basis

    [X] negates a bit, and [Mcx] negates its target when every control is 1:
    both send a basis state to a basis state.  [Ry] does not, and a basis
    state has no image under it; measuring leaves a basis state as it is. *)

Record basis_state : Type := {
  comps : nat -> bool;    (* the bits of the register "comp" *)
  outb : bool             (* the bit of the register "out" *)
}.

Definition read (q : qubit) (st : basis_state) : bool :=
  match q with
  | q_components i => comps st i
  | q_out => outb st
  end.

Definition flip (q : qubit) (st : basis_state) : basis_state :=
  match q with
  | q_components i =>
      {| comps := fun j => if Nat.eqb j i then negb (comps st j) else comps st j;
         outb := outb st |}
  | q_out => {| comps := comps st; outb := negb (outb st) |}
  end.

Definition step {num : Type} (g : instruction num) (st : basis_state)
  : option basis_state :=
  match g with
  | Ry _ _ => None
  | X q => Some (flip q st)
  | Mcx controls target =>
      Some (if forallb (fun c => read c st) controls then flip target st else st)
  | Measure => Some st
  end.

Fixpoint run {num : Type} (gates : list (instruction num)) (st : basis_state)
  : option basis_state :=
  match gates with
  | [] => Some st
  | g :: rest =>
      match step g st with
      | None => None
      | Some st' => run rest st'
      end
  end.

(** The number of components found working among the first [n]. *)
Definition successes (n : nat) (st : basis_state) : nat :=
  length (filter (comps st) (range n)).

(** The basis state of an assignment, the output bit at 0. *)
Definition basis_of (a : list bool) : basis_state :=
  {| comps := fun i => nth i a false; outb := false |}.

(** The output bit the logic of the circuit leaves on an assignment. *)
Definition circuit_output (num : Type) (n : nat) (k : Z) (a : list bool) : bool :=
  match logic (num := num) n k with
  | Some gates =>
      match run gates (basis_of a) with
      | Some st => outb st
      | None => false
      end
  | None => false
  end.

Definition is_mcx {num : Type} (g : instruction num) : bool :=
  match g with
  | Mcx _ _ => true
  | _ => false
  end.


(* ================================================================== *)
(** ** run_simulation

    [run_simulation] can end in two ways: it returns its record, or one of
    its calls raises.  The measurement outcomes of the simulated circuit (the
    circuit transpiled and run on the Aer backend) and the numpy and scipy
    functions come from outside the program, and are taken to return.
    Printing the circuit changes no value and is left out. *)

Inductive exception : Type :=
| ValueError           (* reliability_circuit_variable_p, line 61 *)
| ZeroDivisionError.   (* counts.get('1', 0) / numshots, line 79 *)

Class External (num : Type) : Type := {
  (* [counts.get('1', 0)] of the run number [sim_idx] of the circuit built
     for [p_list] and [k], with [shots=numshots] *)
  counts_of_ones : list num -> Z -> Z -> nat -> Z;
  (* np.mean(a) *)
  np_mean : list num -> num;
  (* np.std(a, ddof=1) *)
  np_std_ddof1 : list num -> num;
  (* np.sqrt(m) of a Python int *)
  np_sqrt : Z -> num;
  (* scipy.stats.t.ppf(q, df=df) *)
  t_ppf : num -> Z -> num
}.

Record result (num : Type) : Type := {
  classical : num;
  quantum_mean : num;
  quantum_std : num;
  ci_lower : num;
  ci_upper : num;
  relative_error : num
}.
Arguments classical {num}.
Arguments quantum_mean {num}.
Arguments quantum_std {num}.
Arguments ci_lower {num}.
Arguments ci_upper {num}.
Arguments relative_error {num}.

(** A loop that appends one value per index and stops at the first raise. *)
Fixpoint collect {A E : Type} (body : nat -> E + A) (indices : list nat)
  : E + list A :=
  match indices with
  | [] => inr []
  | i :: rest =>
      match body i with
      | inl e => inl e
      | inr a =>
          match collect body rest with
          | inl e => inl e
          | inr appended => inr (a :: appended)
          end
      end
  end.

Section RunSimulation.
Context {num : Type} {AR : Arith num} {EN : Encoding num} {EXT : External num}.
Local Open Scope arith_scope.

(** [a / b] of two Python ints: it raises for [b == 0], and is the float
    nearest to the quotient otherwise, which is the quotient of the two ints
    as floats for ints below [2^53], as the counts and the shots of a run
    are. *)
Definition int_true_div (a b : Z) : exception + num :=
  if (b =? 0)%Z then inl ZeroDivisionError else inr (of_int a / of_int b).

(** The body of [for sim_idx in range(num_simulations)]. *)
Definition quantum_prob (p_list : list num) (k numshots : Z) (sim_idx : nat)
  : exception + num :=
  int_true_div (counts_of_ones p_list k numshots sim_idx) numshots.

Definition quantum_probs (p_list : list num) (k num_simulations numshots : Z)
  : exception + list num :=
  collect (quantum_prob p_list k numshots) (seq 0 (Z.to_nat num_simulations)).

(** Lines 82 to 106: the statistics of the batch proportions.  The [0] of
    line 85 and the [1] of line 88 are Python ints, read as numbers. *)
Definition statistics (classical_prob : num) (quantum_probs_array : list num)
           (num_simulations : Z) (confidence_level : num) : result num :=
  let mean_quantum := np_mean quantum_probs_array in
  let std_quantum :=
    if (num_simulations >? 1)%Z then np_std_ddof1 quantum_probs_array else zero in
  let ci :=
    if (num_simulations >? 1)%Z then
      let t_value := t_ppf ((one + confidence_level) / of_int 2) (num_simulations - 1) in
      let se := std_quantum / np_sqrt num_simulations in
      let ci_length := t_value * se in
      (mean_quantum - ci_length, mean_quantum + ci_length)
    else (mean_quantum, mean_quantum) in
  let relative_error :=
    absolute (mean_quantum - classical_prob) / classical_prob * of_int 100 in
  {| classical := classical_prob;
     quantum_mean := mean_quantum;
     quantum_std := std_quantum;
     ci_lower := fst ci;
     ci_upper := snd ci;
     relative_error := relative_error |}.

Definition run_simulation (p_list : list num) (k num_simulations numshots : Z)
           (confidence_level : num) : exception + result num :=
  let classical_prob := k_out_of_n_variable_p_reliability p_list k in
  match reliability_circuit_variable_p p_list k with
  | None => inl ValueError
  | Some qc =>
      match quantum_probs p_list k num_simulations numshots with
      | inl raised => inl raised
      | inr probs =>
          inr (statistics classical_prob probs num_simulations confidence_level)
      end
  end.
End RunSimulation.

(* ================================================================== *)
(** ** Exact arithmetic *)

(** The neutral elements are neutral on the left and the product commutes:
    all that [p^n] needs.  No rounding is involved in these laws: binary64
    has them but for the sign of zero ([0.0 + -0.0] is [0.0]). *)
Class UnitLaws (num : Type) {AR : Arith num} : Prop := {
  add_zero_l : forall x, add zero x = x;
  mul_one_l : forall x, mul one x = x;
  mul_commutes : forall x y, mul x y = mul y x
}.

(** The operations form a commutative ring: nothing rounds. *)
Class ExactArith (num : Type) {AR : Arith num} : Prop := {
  exact_ring : ring_theory zero one add mul sub (fun x => sub zero x) eq
}.

(** ... and [<=] is an order that addition and multiplication respect. *)
Class OrderedArith (num : Type) {AR : Arith num} : Prop := {
  ordered_exact :: ExactArith num;
  le_refl : forall x, le x x;
  le_trans : forall x y z, le x y -> le y z -> le x z;
  add_le_mono : forall x y z, le x y -> le (add z x) (add z y);
  mul_nonneg : forall x y, le zero x -> le zero y -> le zero (mul x y);
  div_nonneg : forall x y, le zero x -> le zero y -> y <> zero -> le zero (div x y);
  zero_le_one : le zero one
}.

(* ================================================================== *)
(** ** The instances: binary64, the rationals, the reals *)

Module Binary64.
(** A Python int as a float: the magnitude through the 63-bit conversion
    (exact for the small integers of the program), then the sign. *)
Definition float_of_int (z : Z) : float :=
  let magnitude := PrimFloat.of_uint63 (Uint63.of_Z (Z.abs z)) in
  if (z <? 0)%Z then PrimFloat.opp magnitude else magnitude.

#[export] Instance float_arith : Arith float := {|
  zero := 0%float;
  one := 1%float;
  add := PrimFloat.add;
  sub := PrimFloat.sub;
  mul := PrimFloat.mul;
  div := PrimFloat.div;
  absolute := PrimFloat.abs;
  of_int := float_of_int;
  is_zero := fun x => PrimFloat.eqb x 0%float;
  le := fun x y => PrimFloat.leb x y = true
|}.

(** The values that are no finite number. *)
Definition not_finite (x : float) : bool :=
  (PrimFloat.is_nan x || PrimFloat.is_infinity x)%bool.
End Binary64.

(** What the libraries return on binary64, at the arguments of the examples
    below.  The square root is the correctly rounded one of IEEE 754, which
    numpy's is; the other values are those the functions return at these
    arguments, and [nan] stands where none is recorded. *)
Module Recorded.
Import Binary64.
Local Open Scope float_scope.

(** numpy.arcsin at 0, 1/2 and 1. *)
Definition arcsin (x : float) : float :=
  if x =? 0 then x
  else if x =? 0.5 then 0.5235987755982989
  else if x =? 1 then 1.5707963267948966
  else nan.

#[export] Instance float_encoding : Encoding float := {|
  np_arcsin := arcsin;
  np_sqrt_float := PrimFloat.sqrt
|}.

(** numpy.mean of an array of at most two elements ([nan], with a warning,
    for the empty array). *)
Definition short_mean (a : list float) : float :=
  match a with
  | [] => 0 / 0
  | [x] => x / 1
  | [x; y] => (x + y) / 2
  | _ => nan
  end.

(** numpy.std with [ddof=1] of an array of two elements: the square root of
    the sum of the squared deviations from the mean, divided by [2 - 1]. *)
Definition short_std (a : list float) : float :=
  match a with
  | [x; y] =>
      let m := short_mean a in
      PrimFloat.sqrt (((x - m) * (x - m) + (y - m) * (y - m)) / 1)
  | _ => nan
  end.

(** scipy.stats.t.ppf with one degree of freedom, at 0.25, 0.75, 0.975 and
    1. *)
Definition t_ppf_df1 (q : float) (df : Z) : float :=
  if negb (df =? 1)%Z then nan
  else if q =? 0.25 then -1.0000000000000002
  else if q =? 0.75 then 1.0000000000000002
  else if q =? 0.975 then 12.706204736174694
  else if q =? 1 then infinity
  else nan.

(** The run in which the successive batches counted [counts] ones. *)
Definition recorded (counts : list Z) : External float := {|
  counts_of_ones := fun _ _ _ sim_idx => nth sim_idx counts 0%Z;
  np_mean := short_mean;
  np_std_ddof1 := short_std;
  np_sqrt := fun m => PrimFloat.sqrt (float_of_int m);
  t_ppf := t_ppf_df1
|}.

(** The rational a finite float stands for. *)
Definition exact_value (x : float) : option Q :=
  match Prim2SF x with
  | S754_zero _ => Some 0%Q
  | S754_finite s m e =>
      let magnitude :=
        match e with
        | Zneg d => Qmake (Zpos m) (2 ^ d)
        | _ => inject_Z (Zpos m * 2 ^ e)
        end in
      Some (if s then Qopp magnitude else magnitude)
  | _ => None
  end.

(** How far a float is from [p^n], the power taken without rounding. *)
Definition distance_to_power (x p : float) (n : nat) : option Q :=
  match exact_value x, exact_value p with
  | Some vx, Some vp => Some (Qabs (vx - vp ^ Z.of_nat n))
  | _, _ => None
  end.
End Recorded.

Module Rational.
#[export] Instance Qc_arith : Arith Qc := {|
  zero := 0%Qc;
  one := 1%Qc;
  add := Qcplus;
  sub := Qcminus;
  mul := Qcmult;
  div := Qcdiv;
  absolute := fun x => Q2Qc (Qabs x);
  of_int := fun z => Q2Qc (inject_Z z);
  is_zero := fun x => Qc_eq_bool x 0%Qc;
  le := Qcle
|}.
End Rational.

(** The rationals are exact and ordered. *)
Module RationalLaws.
Import Rational.
Local Open Scope Qc_scope.

#[export] Instance Qc_exact : ExactArith Qc.
Proof.
  constructor. cbn. constructor; intros; cbn.
  all: ring.
Qed.

#[export] Instance Qc_ordered : OrderedArith Qc.
Proof.
  constructor; simpl.
  - exact Qc_exact.
  - exact Qcle_refl.
  - exact Qcle_trans.
  - intros x y z Hxy. apply Qcplus_le_compat; [apply Qcle_refl|exact Hxy].
  - intros x y Hx Hy. rewrite <- (Qcmult_0_l y).
    now apply Qcmult_le_compat_r.
  - intros x y Hx Hy Hy0. unfold Qcdiv. rewrite <- (Qcmult_0_l (/ y)).
    apply Qcmult_le_compat_r; [exact Hx|].
    apply Qcle_lt_or_eq in Hy as [Hy|Hy]; [|now subst y].
    apply Qclt_le_weak. unfold Qclt, Qcinv. cbn.
    rewrite Qred_correct. now apply Qinv_lt_0_compat.
  - discriminate.
Qed.
End RationalLaws.

(** The real numbers: exact, ordered, and with square roots. *)
Module Real.
#[export] Instance R_arith : Arith R := {|
  zero := 0%R;
  one := 1%R;
  add := Rplus;
  sub := Rminus;
  mul := Rmult;
  div := Rdiv;
  absolute := Rabs;
  of_int := IZR;
  is_zero := fun x => if Req_dec_T x 0%R then true else false;
  le := Rle
|}.

#[export] Instance R_exact : ExactArith R.
Proof.
  constructor. cbn. constructor; intros; cbn.
  all: ring.
Qed.

#[export] Instance R_ordered : OrderedArith R.
Proof.
  constructor; cbn.
  - exact R_exact.
  - exact Rle_refl.
  - exact Rle_trans.
  - intros x y z Hxy. now apply Rplus_le_compat_l.
  - exact Rmult_le_pos.
  - intros x y Hx Hy Hy0. apply Rmult_le_pos; [exact Hx|].
    apply Rlt_le, Rinv_0_lt_compat. lra.
  - exact Rle_0_1.
Qed.

End Real.

(** numpy's arcsin and sqrt, on the reals. *)
Module RealEncoding.
#[export] Instance R_encoding : Encoding R := {|
  np_arcsin := asin;
  np_sqrt_float := R_sqrt.sqrt
|}.
End RealEncoding.

(* ================================================================== *)
(** ** The enumeration *)

Section ProductFacts.
Context {A : Type}.
Implicit Types (pool : list A) (result : list (list A)).

Lemma extend_app pool result1 result2 :
  extend pool (result1 ++ result2) = extend pool result1 ++ extend pool result2.
Proof. unfold extend. apply flat_map_app. Qed.

Lemma extend_map_cons pool (y : A) result :
  extend pool (map (cons y) result) = map (cons y) (extend pool result).
Proof.
  unfold extend. induction result as [|x result IH]; simpl; [reflexivity|].
  rewrite IH, map_app, map_map. reflexivity.
Qed.

Lemma extend_flat_map pool (f : A -> list (list A)) (ys : list A) :
  extend pool (flat_map f ys) = flat_map (fun y => extend pool (f y)) ys.
Proof.
  induction ys as [|y ys IH]; simpl; [reflexivity|].
  rewrite extend_app, IH. reflexivity.
Qed.

(** The first position varies slowest: the tuples that start with the first
    element of the pool come first. *)
Lemma product_S_cons pool (n : nat) :
  product pool (S n) = flat_map (fun y => map (cons y) (product pool n)) pool.
Proof.
  induction n as [|n IH].
  - simpl. unfold extend. simpl. rewrite app_nil_r.
    induction pool as [|y pool IHp]; simpl; [reflexivity|].
    rewrite IHp. reflexivity.
  - change (product pool (S (S n))) with (extend pool (product pool (S n))).
    rewrite IH at 1. rewrite extend_flat_map.
    apply flat_map_ext. intros y. rewrite extend_map_cons. reflexivity.
Qed.
End ProductFacts.

Lemma product_bits_S (n : nat) :
  product [0%Z; 1%Z] (S n)
  = map (cons 0%Z) (product [0%Z; 1%Z] n) ++ map (cons 1%Z) (product [0%Z; 1%Z] n).
Proof. rewrite product_S_cons. simpl. rewrite app_nil_r. reflexivity. Qed.

(** The tuples of 0 and 1 that the loop visits are the assignments, in the
    same order, with 1 for a success. *)
Definition bits_of (a : list bool) : list Z := map Z.b2z a.

Section Enumeration.
Context {num : Type} {AR : Arith num}.

Lemma product_bits_assignments (n : nat) :
  product [0%Z; 1%Z] n = map bits_of (assignments n).
Proof.
  induction n as [|n IH]; [reflexivity|].
  rewrite product_bits_S, IH. simpl.
  rewrite map_app, !map_map. reflexivity.
Qed.

Lemma assignments_length (n : nat) : length (assignments n) = 2 ^ n.
Proof.
  induction n as [|n IH]; [reflexivity|].
  simpl. rewrite length_app, !length_map, IH. lia.
Qed.

Lemma assignments_complete (n : nat) (a : list bool) :
  In a (assignments n) <-> length a = n.
Proof.
  revert a. induction n as [|n IH]; intros a; simpl.
  - split.
    + intros [<-|[]]. reflexivity.
    + destruct a; [now left|discriminate].
  - rewrite in_app_iff, !in_map_iff. split.
    + intros [[x [<- Hx]]|[x [<- Hx]]]; simpl; f_equal; now apply IH.
    + destruct a as [|[|] a]; [discriminate| |]; intros Hlen;
        injection Hlen as Hlen; [right|left]; exists a; (split; [reflexivity|now apply IH]).
Qed.

Lemma assignments_NoDup (n : nat) : NoDup (assignments n).
Proof.
  induction n as [|n IH]; simpl.
  - constructor; [intros []|constructor].
  - apply NoDup_app.
    + apply Injective_map_NoDup; [|exact IH]. intros x y Hxy. now injection Hxy.
    + apply Injective_map_NoDup; [|exact IH]. intros x y Hxy. now injection Hxy.
    + intros a Hf Ht. apply in_map_iff in Hf as [x [<- _]].
      apply in_map_iff in Ht as [y [Hy _]]. discriminate.
Qed.

Lemma ones_le_length (a : list bool) : ones a <= length a.
Proof. apply count_occ_bound. Qed.

Lemma sum_bits_from (a : list bool) (acc : Z) :
  fold_left Z.add (bits_of a) acc = (acc + Z.of_nat (ones a))%Z.
Proof.
  revert acc. induction a as [|b a IH]; intros acc; simpl; [lia|].
  rewrite IH. unfold ones. destruct b; simpl; lia.
Qed.

Lemma sum_bits_of (a : list bool) : sum (bits_of a) = Z.of_nat (ones a).
Proof. unfold sum. now rewrite sum_bits_from. Qed.
End Enumeration.

(* ================================================================== *)
(** ** The loops compute the sum over assignments (any arithmetic) *)

Section LoopsAreSum.
Context {num : Type} {AR : Arith num}.
Local Open Scope arith_scope.

Lemma inner_loop_from (a : list bool) (p_list : list num) (prob : num) :
  fold_left (fun prob (bp : Z * num) => prob * factor (fst bp) (snd bp))
            (combine (bits_of a) p_list) prob
  = fold_left mul
      (map (fun bp : bool * num => if fst bp then snd bp else one - snd bp)
           (combine a p_list)) prob.
Proof.
  revert p_list prob. induction a as [|b a IH]; intros [|p p_list] prob;
    simpl; try reflexivity.
  rewrite IH. destruct b; reflexivity.
Qed.

Lemma assignment_prob_mass (a : list bool) (p_list : list num) :
  assignment_prob (bits_of a) p_list = mass p_list a.
Proof. apply inner_loop_from. Qed.

Lemma accumulate_bits_of (p_list : list num) (k : Z) (total : num) (a : list bool) :
  accumulate p_list k total (bits_of a)
  = if (k <=? Z.of_nat (ones a))%Z then total + mass p_list a else total.
Proof.
  unfold accumulate. rewrite sum_bits_of, assignment_prob_mass, Z.geb_leb.
  reflexivity.
Qed.

Lemma outer_loop_from (p_list : list num) (k : Z) (l : list (list bool)) (total : num) :
  fold_left (accumulate p_list k) (map bits_of l) total
  = fold_left add
      (map (mass p_list) (filter (fun a => (k <=? Z.of_nat (ones a))%Z) l)) total.
Proof.
  revert total. induction l as [|a l IH]; intros total; simpl; [reflexivity|].
  rewrite accumulate_bits_of, IH.
  destruct (k <=? Z.of_nat (ones a))%Z; reflexivity.
Qed.

Lemma loops_are_spec (p_list : list num) (k : Z) :
  k_out_of_n_variable_p_reliability p_list k = reliability_spec p_list k.
Proof.
  unfold k_out_of_n_variable_p_reliability, reliability_spec, sum_of.
  rewrite product_bits_assignments. apply outer_loop_from.
Qed.

Lemma filter_none {B : Type} (f : B -> bool) (l : list B) :
  (forall x, In x l -> f x = false) -> filter f l = [].
Proof.
  induction l as [|x l IH]; intros Hf; simpl; [reflexivity|].
  rewrite (Hf x (or_introl eq_refl)). apply IH.
  intros y Hy. apply Hf. now right.
Qed.

Lemma no_assignment_reaches (n : nat) (k : Z) :
  (Z.of_nat n < k)%Z ->
  filter (fun a => (k <=? Z.of_nat (ones a))%Z) (assignments n) = [].
Proof.
  intros Hk. apply filter_none. intros a Ha.
  apply assignments_complete in Ha. pose proof (ones_le_length a).
  apply Z.leb_gt. lia.
Qed.

(** With [k = n] one assignment is left: every component succeeds. *)
Lemma only_all_successes (n : nat) :
  filter (fun a => (Z.of_nat n <=? Z.of_nat (ones a))%Z) (assignments n)
  = [repeat true n].
Proof.
  induction n as [|n IH]; [reflexivity|].
  simpl assignments. rewrite filter_app, !filter_map_swap.
  rewrite filter_none.
  - rewrite (filter_ext _ (fun a => (Z.of_nat n <=? Z.of_nat (ones a))%Z)).
    + rewrite IH. reflexivity.
    + intros a. apply Bool.eq_true_iff_eq. rewrite !Z.leb_le.
      change (ones (true :: a)) with (S (ones a)). lia.
  - intros a Ha. apply assignments_complete in Ha.
    pose proof (ones_le_length a). apply Z.leb_gt.
    change (ones (false :: a)) with (ones a). lia.
Qed.

Lemma factors_all_successes (p : num) (n : nat) :
  map (fun bp : bool * num => if fst bp then snd bp else one - snd bp)
      (combine (repeat true n) (repeat p n))
  = repeat p n.
Proof. induction n as [|n IH]; simpl; [reflexivity|now rewrite IH]. Qed.

(** In every arithmetic the estimator at [k = n] is [0.0] plus the product
    [1.0 * p * ... * p] of the inner loop. *)
Lemma all_succeed_left_product (p : num) (n : nat) :
  k_out_of_n_variable_p_reliability (repeat p n) (Z.of_nat n)
  = zero + product_of (repeat p n).
Proof.
  rewrite loops_are_spec. unfold reliability_spec.
  rewrite repeat_length, only_all_successes. simpl map.
  unfold mass at 1. rewrite factors_all_successes. reflexivity.
Qed.

Lemma product_of_repeat {UL : UnitLaws num} (p : num) (n : nat) :
  product_of (repeat p n) = power p n.
Proof.
  unfold product_of. induction n as [|n IH]; [reflexivity|].
  change (repeat p (S n)) with (p :: repeat p n).
  rewrite repeat_cons, fold_left_app, IH. simpl. apply mul_commutes.
Qed.

Lemma spec_above_n (p_list : list num) (k : Z) :
  (Z.of_nat (length p_list) < k)%Z -> reliability_spec p_list k = zero.
Proof.
  intros Hk. unfold reliability_spec. now rewrite no_assignment_reaches.
Qed.
End LoopsAreSum.

(* ================================================================== *)
(** ** Consequences of the ring laws *)

Section Exact.
Context {num : Type} {AR : Arith num} {EX : ExactArith num}.
Local Open Scope arith_scope.

Add Ring num_ring : exact_ring.

#[export] Instance exact_unit_laws : UnitLaws num.
Proof. constructor; intros; ring. Qed.

Lemma sum_from (l : list num) (acc : num) :
  fold_left add l acc = acc + sum_of l.
Proof.
  unfold sum_of. revert acc. induction l as [|x l IH]; intros acc; simpl.
  - ring.
  - rewrite IH, (IH (zero + x)). ring.
Qed.

Lemma sum_of_cons (x : num) (l : list num) : sum_of (x :: l) = x + sum_of l.
Proof. unfold sum_of at 1. simpl. rewrite sum_from. ring. Qed.

Lemma sum_of_app (l1 l2 : list num) : sum_of (l1 ++ l2) = sum_of l1 + sum_of l2.
Proof.
  unfold sum_of at 1. rewrite fold_left_app, sum_from. reflexivity.
Qed.

Lemma product_from (l : list num) (acc : num) :
  fold_left mul l acc = acc * product_of l.
Proof.
  unfold product_of. revert acc. induction l as [|x l IH]; intros acc; simpl.
  - ring.
  - rewrite IH, (IH (one * x)). ring.
Qed.

Lemma mass_cons (p : num) (ps : list num) (b : bool) (a : list bool) :
  mass (p :: ps) (b :: a) = (if b then p else one - p) * mass ps a.
Proof.
  unfold mass, product_of at 1. simpl. rewrite product_from. ring.
Qed.

Lemma ones_cons (b : bool) (a : list bool) :
  ones (b :: a) = if b then S (ones a) else ones a.
Proof. destruct b; reflexivity. Qed.

(** The assignments that fix the first component to [b]. *)
Lemma sum_branch (b : bool) (p : num) (ps : list num) (k : Z) (l : list (list bool)) :
  sum_of (map (mass (p :: ps))
              (filter (fun a => (k <=? Z.of_nat (ones a))%Z) (map (cons b) l)))
  = (if b then p else one - p)
    * sum_of (map (mass ps)
                  (filter (fun a => ((if b then k - 1 else k) <=? Z.of_nat (ones a))%Z) l)).
Proof.
  induction l as [|a l IH]; simpl map at 2; simpl filter.
  - unfold sum_of. simpl. ring.
  - rewrite ones_cons.
    replace (k <=? Z.of_nat (if b then S (ones a) else ones a))%Z
      with ((if b then k - 1 else k) <=? Z.of_nat (ones a))%Z
      by (destruct b; [apply Bool.eq_true_iff_eq; rewrite !Z.leb_le; lia|reflexivity]).
    destruct ((if b then k - 1 else k) <=? Z.of_nat (ones a))%Z; [|exact IH].
    simpl map. rewrite !sum_of_cons, IH, mass_cons. ring.
Qed.

(** Conditioning on the first component. *)
Lemma spec_cons (p : num) (ps : list num) (k : Z) :
  reliability_spec (p :: ps) k
  = (one - p) * reliability_spec ps k + p * reliability_spec ps (k - 1).
Proof.
  unfold reliability_spec. simpl length. simpl assignments.
  rewrite filter_app, map_app, sum_of_app.
  rewrite (sum_branch false), (sum_branch true). reflexivity.
Qed.

Lemma spec_nil (k : Z) :
  reliability_spec [] k = if (k <=? 0)%Z then one else zero.
Proof.
  unfold reliability_spec. simpl. change (Z.of_nat (ones [])) with 0%Z.
  destruct (k <=? 0)%Z; unfold sum_of, mass, product_of; simpl; ring.
Qed.

Lemma spec_k_nonpositive (ps : list num) (k : Z) :
  (k <= 0)%Z -> reliability_spec ps k = one.
Proof.
  revert k. induction ps as [|p ps IH]; intros k Hk.
  - rewrite spec_nil. apply Z.leb_le in Hk. now rewrite Hk.
  - rewrite spec_cons, !IH by lia. ring.
Qed.

Lemma spec_all_succeed (ps : list num) :
  reliability_spec ps (Z.of_nat (length ps)) = fold_right mul one ps.
Proof.
  induction ps as [|p ps IH].
  - rewrite spec_nil. reflexivity.
  - rewrite spec_cons. rewrite spec_above_n by (simpl length; lia).
    replace (Z.of_nat (length (p :: ps)) - 1)%Z with (Z.of_nat (length ps))
      by (simpl length; lia).
    rewrite IH. simpl. ring.
Qed.

Lemma spec_any_succeeds (ps : list num) :
  reliability_spec ps 1
  = one - fold_right mul one (map (fun p => one - p) ps).
Proof.
  induction ps as [|p ps IH].
  - rewrite spec_nil. simpl. ring.
  - rewrite spec_cons, IH. rewrite spec_k_nonpositive by lia. simpl. ring.
Qed.

Lemma fold_right_repeat (p : num) (n : nat) :
  fold_right mul one (repeat p n) = power p n.
Proof. induction n as [|n IH]; simpl; [reflexivity|now rewrite IH]. Qed.
End Exact.

Section Ordered.
Context {num : Type} {AR : Arith num} {OA : OrderedArith num}.
Local Open Scope arith_scope.

Add Ring ordered_ring : exact_ring.

Lemma complement_nonneg (p : num) : p <= one -> zero <= one - p.
Proof.
  intros Hp. apply (add_le_mono _ _ (zero - p)) in Hp.
  replace ((zero - p) + p) with zero in Hp by ring.
  replace ((zero - p) + one) with (one - p) in Hp by ring.
  exact Hp.
Qed.

Lemma add_le_both (x x' y y' : num) : x <= x' -> y <= y' -> x + y <= x' + y'.
Proof.
  intros Hx Hy. apply le_trans with (x + y').
  - now apply add_le_mono.
  - replace (x + y') with (y' + x) by ring.
    replace (x' + y') with (y' + x') by ring.
    now apply add_le_mono.
Qed.

Lemma add_nonneg (x y : num) : zero <= x -> zero <= y -> zero <= x + y.
Proof.
  intros Hx Hy. replace zero with (zero + zero) by ring.
  now apply add_le_both.
Qed.

Lemma mul_le_self (c a : num) : zero <= c -> a <= one -> c * a <= c.
Proof.
  intros Hc Ha.
  pose proof (mul_nonneg _ _ Hc (complement_nonneg _ Ha)) as H.
  apply (add_le_mono _ _ (c * a)) in H.
  replace (c * a + zero) with (c * a) in H by ring.
  replace (c * a + c * (one - a)) with c in H by ring.
  exact H.
Qed.

(** A mixture of two values of [0, 1] with weights [1 - p] and [p]. *)
Lemma mixture_range (p a b : num) :
  zero <= p -> p <= one -> zero <= a -> a <= one -> zero <= b -> b <= one ->
  zero <= (one - p) * a + p * b /\ (one - p) * a + p * b <= one.
Proof.
  intros Hp0 Hp1 Ha0 Ha1 Hb0 Hb1.
  pose proof (complement_nonneg _ Hp1) as Hq0.
  split.
  - apply add_nonneg; now apply mul_nonneg.
  - apply le_trans with ((one - p) + p).
    + apply add_le_both; now apply mul_le_self.
    + replace ((one - p) + p) with one by ring. apply le_refl.
Qed.

Lemma spec_range (ps : list num) (k : Z) :
  Forall (fun p => zero <= p /\ p <= one) ps ->
  zero <= reliability_spec ps k /\ reliability_spec ps k <= one.
Proof.
  intros Hps. revert k. induction Hps as [|p ps [Hp0 Hp1] _ IH]; intros k.
  - rewrite spec_nil. destruct (k <=? 0)%Z; split;
      auto using le_refl, zero_le_one.
  - rewrite spec_cons.
    destruct (IH k) as [Ha0 Ha1]. destruct (IH (k - 1)%Z) as [Hb0 Hb1].
    now apply mixture_range.
Qed.
End Ordered.


(* ================================================================== *)
(** ** The exact estimator: what the specification says of it *)

Import Binary64 Recorded Rational RationalLaws Real.

(** C1.  For every probability vector and every integer [k], the loops of
    [k_out_of_n_variable_p_reliability] return the sum, over the assignments
    of [n] components with at least [k] successes, of the product of [p_i]
    for a success and [1 - p_i] for a failure; the assignments summed over
    are all the [2^n] bit vectors of length [n], each once.  This holds in
    every arithmetic, binary64 included: the terms are added in the order of
    [itertools.product]. *)
Theorem exact_is_sum_over_assignments {num : Type} {AR : Arith num}
        (p_list : list num) (k : Z) :
  k_out_of_n_variable_p_reliability p_list k = reliability_spec p_list k
  /\ (forall a : list bool,
         In a (assignments (length p_list)) <-> length a = length p_list)
  /\ NoDup (assignments (length p_list))
  /\ length (assignments (length p_list)) = 2 ^ length p_list.
Proof.
  split; [apply loops_are_spec|].
  split; [intros a; apply assignments_complete|].
  split; [apply assignments_NoDup|apply assignments_length].
Qed.

(** C7.  For every probability vector of length [n] and every [k > n] the
    estimator returns exactly zero: no assignment is added to the initial
    [0.0].  This holds in every arithmetic, binary64 included. *)
Theorem above_n_is_zero {num : Type} {AR : Arith num} (p_list : list num) (k : Z) :
  (Z.of_nat (length p_list) < k)%Z ->
  k_out_of_n_variable_p_reliability p_list k = zero.
Proof.
  intros Hk. rewrite loops_are_spec. now apply spec_above_n.
Qed.

(** The program's own example, 3-out-of-4 with [p = 0.97], on binary64. *)
Example program_example_binary64 :
  k_out_of_n_variable_p_reliability [0.97; 0.97; 0.97; 0.97]%float 3
  = 0.99481357%float.
Proof. vm_compute. reflexivity. Qed.

Lemma above_n_is_zero_witness :
  (Z.of_nat (length [0.5; 0.5]%float) < 3)%Z
  /\ k_out_of_n_variable_p_reliability [0.5; 0.5]%float 3 = 0%float.
Proof.
  split; [reflexivity|].
  exact (above_n_is_zero [0.5; 0.5]%float 3 eq_refl).
Defined.

(** C6, as the code has it.  In exact arithmetic the estimator returns 1 for
    [k = 0], whatever the probability vector. *)
Theorem k_zero_is_one_exact {num : Type} {AR : Arith num} {EX : ExactArith num}
        (p_list : list num) :
  k_out_of_n_variable_p_reliability p_list 0 = one.
Proof.
  rewrite loops_are_spec. apply spec_k_nonpositive. lia.
Qed.

Lemma k_zero_is_one_exact_witness :
  ExactArith Qc
  /\ k_out_of_n_variable_p_reliability [Q2Qc (3 # 10); Q2Qc (3 # 10)] 0 = 1%Qc.
Proof.
  split; [exact Qc_exact|].
  exact (k_zero_is_one_exact (EX := Qc_exact) _).
Defined.

(** C6 fails in binary64: for two components of probability 0.3 the four
    rounded products add up to 0.9999999999999999. *)
Lemma k_zero_not_one_binary64 :
  k_out_of_n_variable_p_reliability [0.3; 0.3]%float 0 = 0.9999999999999999%float
  /\ k_out_of_n_variable_p_reliability [0.3; 0.3]%float 0 <> 1%float.
Proof.
  split; [vm_compute; reflexivity|].
  intros H. apply (f_equal (fun x => PrimFloat.eqb x 1)) in H.
  vm_compute in H. discriminate H.
Qed.

(** C8, as the code has it.  For [n >= 0] components of the same probability
    [p] and [k = n], the estimator returns [p^n] in exact arithmetic: the
    only assignment counted is the one where every component succeeds. *)
Theorem iid_all_of_n_exact {num : Type} {AR : Arith num} {EX : ExactArith num}
        (p : num) (n : nat) :
  k_out_of_n_variable_p_reliability (repeat p n) (Z.of_nat n) = power p n.
Proof.
  rewrite all_succeed_left_product, product_of_repeat. apply add_zero_l.
Qed.

Lemma iid_all_of_n_exact_witness :
  ExactArith Qc
  /\ k_out_of_n_variable_p_reliability (repeat (Q2Qc (9 # 10)) 4) 4
     = power (Q2Qc (9 # 10)) 4.
Proof.
  split; [exact Qc_exact|].
  exact (iid_all_of_n_exact (EX := Qc_exact) (Q2Qc (9 # 10)) 4).
Defined.

(** C8 fails in binary64: for four components of probability 0.9 the
    estimator returns the rounded product of the rounded products,
    0.6561000000000001, which is neither [0.9^4] nor the float nearest to it:
    0.6561 is nearer. *)
Lemma iid_all_of_n_not_binary64 :
  k_out_of_n_variable_p_reliability (repeat 0.9%float 4) 4
  = 0.6561000000000001%float
  /\ k_out_of_n_variable_p_reliability (repeat 0.9%float 4) 4 <> 0.6561%float
  /\ exists nearer farther : Q,
       Recorded.distance_to_power 0.6561%float 0.9%float 4 = Some nearer
       /\ Recorded.distance_to_power 0.6561000000000001%float 0.9%float 4
          = Some farther
       /\ (0 < nearer)%Q /\ (nearer < farther)%Q.
Proof.
  split; [vm_compute; reflexivity|]. split.
  - intros H. apply (f_equal (fun x => PrimFloat.eqb x 0.6561)) in H.
    vm_compute in H. discriminate H.
  - eexists. eexists. split; [vm_compute; reflexivity|].
    split; [vm_compute; reflexivity|].
    split; vm_compute; reflexivity.
Qed.

(** C9, as the code has it.  For [n] components of the same probability [p]
    and [k = 1], the estimator returns [1 - (1 - p)^n] in exact arithmetic
    (for every [n], 0 included). *)
Theorem iid_one_of_n_exact {num : Type} {AR : Arith num} {EX : ExactArith num}
        (p : num) (n : nat) :
  k_out_of_n_variable_p_reliability (repeat p n) 1
  = sub one (power (sub one p) n).
Proof.
  rewrite loops_are_spec, spec_any_succeeds, map_repeat, fold_right_repeat.
  reflexivity.
Qed.

Lemma iid_one_of_n_exact_witness :
  ExactArith Qc
  /\ k_out_of_n_variable_p_reliability (repeat (Q2Qc (1 # 10)) 3) 1
     = sub one (power (sub one (Q2Qc (1 # 10))) 3).
Proof.
  split; [exact Qc_exact|].
  exact (iid_one_of_n_exact (EX := Qc_exact) (Q2Qc (1 # 10)) 3).
Defined.

(** C9 fails in binary64 already for one component of probability 0.1: the
    estimator returns 0.1, and [1 - (1 - 0.1)] is 0.09999999999999998.  For
    two components the estimator returns 0.19000000000000003 and the formula
    gives 0.18999999999999995. *)
Lemma iid_one_of_n_not_binary64 :
  k_out_of_n_variable_p_reliability (repeat 0.1%float 1) 1 = 0.1%float
  /\ sub one (power (sub one 0.1%float) 1) = 0.09999999999999998%float
  /\ k_out_of_n_variable_p_reliability (repeat 0.1%float 1) 1
     <> sub one (power (sub one 0.1%float) 1)
  /\ k_out_of_n_variable_p_reliability (repeat 0.1%float 2) 1
     = 0.19000000000000003%float
  /\ sub one (power (sub one 0.1%float) 2) = 0.18999999999999995%float.
Proof.
  split; [vm_compute; reflexivity|].
  split; [vm_compute; reflexivity|].
  split; [|split; vm_compute; reflexivity].
  intros H. apply (f_equal (fun x => PrimFloat.eqb x 0.1)) in H.
  vm_compute in H. discriminate H.
Qed.

(** C10, as the code has it.  In exact ordered arithmetic, when every entry of
    the probability vector lies in [0, 1], so does the value returned, for
    every integer [k]. *)
Theorem reliability_in_unit_interval_exact
        {num : Type} {AR : Arith num} {OA : OrderedArith num}
        (p_list : list num) (k : Z) :
  Forall (fun p => le zero p /\ le p one) p_list ->
  le zero (k_out_of_n_variable_p_reliability p_list k)
  /\ le (k_out_of_n_variable_p_reliability p_list k) one.
Proof.
  intros Hp. rewrite loops_are_spec. now apply spec_range.
Qed.

Lemma reliability_in_unit_interval_exact_witness :
  OrderedArith Qc
  /\ Forall (fun p => le zero p /\ le p one) [Q2Qc (2 # 10); Q2Qc (7 # 10); Q2Qc (7 # 10)]
  /\ le zero (k_out_of_n_variable_p_reliability
                [Q2Qc (2 # 10); Q2Qc (7 # 10); Q2Qc (7 # 10)] 2)
  /\ le (k_out_of_n_variable_p_reliability
           [Q2Qc (2 # 10); Q2Qc (7 # 10); Q2Qc (7 # 10)] 2) one.
Proof.
  assert (Hp : Forall (fun p : Qc => le zero p /\ le p one)
                      [Q2Qc (2 # 10); Q2Qc (7 # 10); Q2Qc (7 # 10)]).
  { repeat constructor; vm_compute; discriminate. }
  split; [exact Qc_ordered|]. split; [exact Hp|].
  exact (reliability_in_unit_interval_exact (OA := Qc_ordered) _ 2 Hp).
Defined.

(** C10 fails in binary64: for the probabilities 0.2, 0.7, 0.7, all in
    [0, 1], and [k = 0], the estimator returns 1.0000000000000002. *)
Lemma reliability_above_one_binary64 :
  Forall (fun p => le zero p /\ le p one) [0.2; 0.7; 0.7]%float
  /\ k_out_of_n_variable_p_reliability [0.2; 0.7; 0.7]%float 0
     = 1.0000000000000002%float
  /\ ~ le (k_out_of_n_variable_p_reliability [0.2; 0.7; 0.7]%float 0) one.
Proof.
  split; [repeat constructor|].
  split; [vm_compute; reflexivity|].
  cbn. intros H. vm_compute in H. discriminate H.
Qed.

(* ================================================================== *)
(** ** The circuit: what its logic does on the basis states *)

Definition xor_all (l : list bool) : bool := fold_right xorb false l.

(** [success_subset] is the set of the components found working. *)
Definition matches (l : list nat) (success_subset : list nat) (s : nat -> bool) : bool :=
  forallb (fun i => Bool.eqb (s i) (existsb (Nat.eqb i) success_subset)) l.

Section CircuitFacts.
Context {num : Type}.
Implicit Types (st : basis_state) (gates : list (instruction num)).

Lemma run_app gates1 gates2 st :
  run (gates1 ++ gates2) st
  = match run gates1 st with
    | Some st' => run gates2 st'
    | None => None
    end.
Proof.
  revert st. induction gates1 as [|g gates1 IH]; intros st; simpl; [reflexivity|].
  destruct (step g st); [apply IH|reflexivity].
Qed.

Lemma forallb_eq_in {B : Type} (f g : B -> bool) (l : list B) :
  (forall x, In x l -> f x = g x) -> forallb f l = forallb g l.
Proof.
  induction l as [|x l IH]; intros H; simpl; [reflexivity|].
  rewrite (H x (or_introl eq_refl)), IH; [reflexivity|].
  intros y Hy. apply H. now right.
Qed.

Lemma forallb_map_comp {B C : Type} (f : C -> bool) (g : B -> C) (l : list B) :
  forallb f (map g l) = forallb (fun x => f (g x)) l.
Proof. induction l as [|x l IH]; simpl; [reflexivity|now rewrite IH]. Qed.

Lemma existsb_eqb_In (j : nat) (l : list nat) :
  existsb (Nat.eqb j) l = true <-> In j l.
Proof.
  rewrite existsb_exists. split.
  - intros [x [Hx E]]. apply Nat.eqb_eq in E. now subst.
  - intros H. exists j. split; [exact H|apply Nat.eqb_refl].
Qed.

Lemma existsb_eqb_notin (j : nat) (l : list nat) :
  ~ In j l -> existsb (Nat.eqb j) l = false.
Proof.
  intros H. destruct (existsb (Nat.eqb j) l) eqn:E; [|reflexivity].
  apply existsb_eqb_In in E. contradiction.
Qed.

(** A run of [qc.x] over distinct components negates exactly their bits. *)
Lemma run_flips (l : list nat) st :
  NoDup l ->
  exists st',
    run (map (fun f => X (num := num) (q_components f)) l) st = Some st'
    /\ outb st' = outb st
    /\ forall j, comps st' j
                 = if existsb (Nat.eqb j) l then negb (comps st j) else comps st j.
Proof.
  intros Hl. revert st. induction Hl as [|a l Ha Hl IH]; intros st.
  - exists st. repeat split.
  - destruct (IH (flip (q_components a) st)) as [st' [Hrun [Hout Hcomps]]].
    exists st'. split; [exact Hrun|]. split; [exact Hout|].
    intros j. rewrite Hcomps. simpl.
    destruct (Nat.eqb j a) eqn:E; simpl.
    + apply Nat.eqb_eq in E. subst j.
      now rewrite (existsb_eqb_notin a l Ha).
    + reflexivity.
Qed.

Lemma fail_subset_NoDup (n : nat) (success_subset : list nat) :
  NoDup (filter (fun i => negb (existsb (Nat.eqb i) success_subset)) (range n)).
Proof. apply NoDup_filter, seq_NoDup. Qed.

Lemma in_fail_subset (n : nat) (success_subset : list nat) (j : nat) :
  existsb (Nat.eqb j)
          (filter (fun i => negb (existsb (Nat.eqb i) success_subset)) (range n))
  = (j <? n) && negb (existsb (Nat.eqb j) success_subset).
Proof.
  apply Bool.eq_true_iff_eq.
  rewrite existsb_eqb_In, filter_In, andb_true_iff, Nat.ltb_lt.
  unfold range. rewrite in_seq. intuition lia.
Qed.

(** One block: the output bit is negated exactly when the components found
    working are those of [success_subset], and the components are restored. *)
Lemma block_run (n : nat) (success_subset : list nat) st :
  exists st',
    run (block (num := num) n success_subset) st = Some st'
    /\ (forall j, comps st' j = comps st j)
    /\ outb st' = xorb (outb st) (matches (range n) success_subset (comps st)).
Proof.
  unfold block.
  pose proof (fail_subset_NoDup n success_subset) as Hnd.
  set (fail_subset :=
         filter (fun i => negb (existsb (Nat.eqb i) success_subset)) (range n)) in *.
  destruct (run_flips fail_subset st Hnd) as [st1 [Hrun1 [Hout1 Hc1]]].
  set (fires := forallb (fun c => read c st1) (map q_components (range n))).
  set (st2 := if fires then flip q_out st1 else st1).
  destruct (run_flips fail_subset st2 Hnd) as [st3 [Hrun3 [Hout3 Hc3]]].
  assert (Hc2 : forall j, comps st2 j = comps st1 j)
    by (intros j; unfold st2; destruct fires; reflexivity).
  assert (Hout2 : outb st2 = xorb (outb st1) fires)
    by (unfold st2; destruct fires; simpl; [now rewrite xorb_true_r|now rewrite xorb_false_r]).
  exists st3. split.
  - rewrite run_app, Hrun1. simpl. fold fires. fold st2. exact Hrun3.
  - split.
    + intros j. rewrite Hc3, Hc2, Hc1.
      destruct (existsb (Nat.eqb j) fail_subset); [apply negb_involutive|reflexivity].
    + rewrite Hout3, Hout2, Hout1. f_equal.
      unfold fires, matches. rewrite forallb_map_comp. simpl.
      apply forallb_eq_in. intros i Hi. rewrite Hc1.
      unfold fail_subset. rewrite in_fail_subset.
      unfold range in Hi. apply in_seq in Hi.
      replace (i <? n) with true by (symmetry; apply Nat.ltb_lt; lia). simpl.
      destruct (existsb (Nat.eqb i) success_subset), (comps st i); reflexivity.
Qed.

Lemma matches_ext (l success_subset : list nat) (s s' : nat -> bool) :
  (forall j, s j = s' j) -> matches l success_subset s = matches l success_subset s'.
Proof.
  intros H. unfold matches. apply forallb_eq_in. intros i _. now rewrite H.
Qed.

(** The blocks of a list of subsets: the output bit is negated once for each
    subset that is the set of the components found working. *)
Lemma blocks_run (n : nat) (subsets : list (list nat)) st :
  exists st',
    run (flat_map (block (num := num) n) subsets) st = Some st'
    /\ (forall j, comps st' j = comps st j)
    /\ outb st'
       = xorb (outb st)
              (xor_all (map (fun sub => matches (range n) sub (comps st)) subsets)).
Proof.
  revert st. induction subsets as [|sub subsets IH]; intros st.
  - exists st. simpl. repeat split. now rewrite xorb_false_r.
  - destruct (block_run n sub st) as [st1 [Hrun1 [Hc1 Hout1]]].
    destruct (IH st1) as [st2 [Hrun2 [Hc2 Hout2]]].
    exists st2. split; [|split].
    + simpl. now rewrite run_app, Hrun1.
    + intros j. now rewrite Hc2, Hc1.
    + rewrite Hout2, Hout1. simpl. rewrite xorb_assoc. f_equal. f_equal.
      unfold xor_all. f_equal.
      apply map_ext. intros sub'. now apply matches_ext.
Qed.
End CircuitFacts.

(** *** Which subsets the loops visit *)

Section Subsets.
Context {num : Type}.

Lemma for_each_all_some {A B : Type} (body : A -> option (list B))
      (f : A -> list B) (items : list A) :
  (forall item, In item items -> body item = Some (f item)) ->
  for_each body items = Some (flat_map f items).
Proof.
  induction items as [|item items IH]; intros H; simpl; [reflexivity|].
  rewrite (H item (or_introl eq_refl)), IH; [reflexivity|].
  intros i Hi. apply H. now right.
Qed.

Lemma flat_map_twice {A B C : Type} (f : B -> list C) (g : A -> list B) (l : list A) :
  flat_map f (flat_map g l) = flat_map (fun x => flat_map f (g x)) l.
Proof.
  induction l as [|x l IH]; simpl; [reflexivity|].
  now rewrite flat_map_app, IH.
Qed.

Lemma in_range_from (start stop r : Z) :
  In r (range_from start stop) <-> (start <= r < stop)%Z.
Proof.
  unfold range_from. rewrite in_map_iff. split.
  - intros [i [<- Hi]]. apply in_seq in Hi. lia.
  - intros Hr. exists (Z.to_nat (r - start)). split; [lia|].
    apply in_seq. lia.
Qed.

Lemma seq_from (a len : nat) : seq a len = map (fun i => a + i) (seq 0 len).
Proof.
  induction a as [|a IH].
  - simpl. now rewrite map_id.
  - rewrite <- seq_shift, IH, map_map. reflexivity.
Qed.

(** The sizes [range(k, n + 1)] runs through, for [k >= 0]. *)
Lemma range_from_sizes (k : Z) (n : nat) :
  (0 <= k)%Z ->
  map Z.to_nat (range_from k (Z.of_nat n + 1))
  = seq (Z.to_nat k) (n + 1 - Z.to_nat k).
Proof.
  intros Hk. unfold range_from. rewrite map_map.
  replace (Z.to_nat (Z.of_nat n + 1 - k)) with (n + 1 - Z.to_nat k) by lia.
  rewrite (seq_from (Z.to_nat k)). apply map_ext. intros i. lia.
Qed.

(** The subsets of the components that get a block, in the order of the loops. *)
Definition visited (n : nat) (k : Z) : list (list nat) :=
  flat_map (subsequences (range n)) (seq (Z.to_nat k) (n + 1 - Z.to_nat k)).

Lemma logic_nonnegative (n : nat) (k : Z) :
  (0 <= k)%Z ->
  logic (num := num) n k = Some (flat_map (block n) (visited n k)).
Proof.
  intros Hk. unfold logic, visited.
  rewrite (for_each_all_some _
             (fun r => flat_map (block n) (subsequences (range n) (Z.to_nat r)))).
  - rewrite <- range_from_sizes by exact Hk.
    rewrite flat_map_twice. f_equal.
    rewrite !flat_map_concat_map, map_map. reflexivity.
  - intros r Hr. apply in_range_from in Hr. unfold combinations.
    replace (r <? 0)%Z with false by (symmetry; apply Z.ltb_ge; lia).
    reflexivity.
Qed.

Lemma logic_negative (n : nat) (k : Z) :
  (k < 0)%Z -> logic (num := num) n k = None.
Proof.
  intros Hk. unfold logic, range_from.
  destruct (Z.to_nat (Z.of_nat n + 1 - k)) as [|m] eqn:E; [lia|].
  simpl. unfold combinations.
  replace (k + 0 <? 0)%Z with true by (symmetry; apply Z.ltb_lt; lia).
  reflexivity.
Qed.
End Subsets.

(** *** Exactly one subset is the set of the components found working *)

Ltac bools_to_props :=
  repeat match goal with
         | H : (_ =? _) = true |- _ => apply Nat.eqb_eq in H
         | H : (_ =? _) = false |- _ => apply Nat.eqb_neq in H
         | H : (_ <=? _) = true |- _ => apply Nat.leb_le in H
         | H : (_ <=? _) = false |- _ => apply Nat.leb_gt in H
         | H : (_ <? _) = true |- _ => apply Nat.ltb_lt in H
         | H : (_ <? _) = false |- _ => apply Nat.ltb_ge in H
         end.

Section OneSubset.

Lemma xor_all_app (l1 l2 : list bool) :
  xor_all (l1 ++ l2) = xorb (xor_all l1) (xor_all l2).
Proof.
  induction l1 as [|b l1 IH]; simpl; [now destruct (xor_all l2)|].
  now rewrite IH, xorb_assoc.
Qed.

Lemma xor_all_and {B : Type} (b : bool) (f : B -> bool) (l : list B) :
  xor_all (map (fun x => b && f x) l) = b && xor_all (map f l).
Proof.
  induction l as [|x l IH]; simpl; [now rewrite andb_false_r|].
  rewrite IH. destruct b, (f x), (xor_all (map f l)); reflexivity.
Qed.

Lemma xor_all_flat_map {B C : Type} (f : C -> bool) (g : B -> list C) (l : list B) :
  xor_all (map f (flat_map g l)) = xor_all (map (fun x => xor_all (map f (g x))) l).
Proof.
  induction l as [|x l IH]; simpl; [reflexivity|].
  now rewrite map_app, xor_all_app, IH.
Qed.

Lemma subsequences_zero {A : Type} (pool : list A) : subsequences pool 0 = [[]].
Proof. destruct pool; reflexivity. Qed.

Lemma subsequences_incl {A : Type} (pool : list A) (r : nat) (sub : list A) :
  In sub (subsequences pool r) -> incl sub pool.
Proof.
  revert r sub. induction pool as [|y rest IH]; intros [|r] sub; simpl.
  - intros [<-|[]]. apply incl_nil_l.
  - intros [].
  - intros [<-|[]]. apply incl_nil_l.
  - rewrite in_app_iff, in_map_iff. intros [[sub' [<- Hsub']]|Hsub].
    + apply incl_cons; [now left|]. apply incl_tl. now apply (IH r).
    + apply incl_tl. now apply (IH (S r)).
Qed.

Lemma matches_nil (l : list nat) (s : nat -> bool) :
  matches l [] s = (length (filter s l) =? 0).
Proof.
  unfold matches. induction l as [|i l IH]; simpl in *; [reflexivity|].
  rewrite IH. destruct (s i); reflexivity.
Qed.

(** Among the subsequences of length [r] of distinct components, one is the
    set of those found working when [r] of them are, and none otherwise. *)
Lemma one_subsequence_matches (l : list nat) (s : nat -> bool) (r : nat) :
  NoDup l ->
  xor_all (map (fun sub => matches l sub s) (subsequences l r))
  = (length (filter s l) =? r).
Proof.
  intros Hl. revert r. induction Hl as [|y rest Hy Hl IH]; intros r.
  - destruct r; reflexivity.
  - destruct r as [|r].
    + rewrite subsequences_zero. unfold xor_all. cbn [map fold_right].
      rewrite xorb_false_r. apply matches_nil.
    + simpl subsequences. rewrite map_app, map_map, xor_all_app.
      rewrite (map_ext_in _ (fun sub => s y && matches rest sub s)).
      * rewrite (map_ext_in (fun sub => matches (y :: rest) sub s)
                            (fun sub => negb (s y) && matches rest sub s)).
        -- rewrite !xor_all_and, !IH. simpl filter.
           destruct (s y); simpl; [now rewrite xorb_false_r|reflexivity].
        -- intros sub Hsub. apply subsequences_incl in Hsub.
           unfold matches. simpl forallb.
           rewrite (existsb_eqb_notin y sub) by (intros H; apply Hy, Hsub, H).
           destruct (s y); reflexivity.
      * intros sub _. unfold matches. simpl forallb.
        rewrite Nat.eqb_refl. simpl.
        replace (Bool.eqb (s y) true) with (s y) by (destruct (s y); reflexivity).
        f_equal. apply forallb_eq_in. intros i Hi.
        replace (i =? y) with false; [reflexivity|].
        symmetry. apply Nat.eqb_neq. intros ->. contradiction.
Qed.

Lemma xor_all_sizes (c a len : nat) :
  xor_all (map (fun r => c =? r) (seq a len)) = (a <=? c) && (c <? a + len).
Proof.
  revert a. induction len as [|len IH]; intros a.
  - simpl. destruct (a <=? c) eqn:E1, (c <? a + 0) eqn:E2; try reflexivity.
    bools_to_props. lia.
  - cbn [seq map]. unfold xor_all. cbn [fold_right].
    fold (xor_all (map (fun r => c =? r) (seq (S a) len))). rewrite IH.
    destruct (c =? a) eqn:E1, (S a <=? c) eqn:E2, (c <? S a + len) eqn:E3,
             (a <=? c) eqn:E4, (c <? a + S len) eqn:E5;
      try reflexivity; bools_to_props; lia.
Qed.

(** Over all the subsets visited: one is the set of the components found
    working exactly when at least [k] of them are. *)
Lemma one_visited_matches (n : nat) (k : Z) (s : nat -> bool) :
  (0 <= k)%Z ->
  xor_all (map (fun sub => matches (range n) sub s) (visited n k))
  = (k <=? Z.of_nat (length (filter s (range n))))%Z.
Proof.
  intros Hk. unfold visited. rewrite xor_all_flat_map.
  rewrite (map_ext _ (fun r => length (filter s (range n)) =? r))
    by (intros r; apply one_subsequence_matches, seq_NoDup).
  rewrite xor_all_sizes.
  pose proof (filter_length_le s (range n)) as Hle.
  unfold range in *. rewrite length_seq in Hle.
  apply Bool.eq_true_iff_eq.
  rewrite andb_true_iff, Nat.leb_le, Nat.ltb_lt, Z.leb_le. lia.
Qed.
End OneSubset.

(** *** The circuit and the assignments *)

Section CircuitAndAssignments.
Context {num : Type}.

Lemma successes_basis_of (a : list bool) :
  successes (length a) (basis_of a) = ones a.
Proof.
  unfold successes, range, basis_of, ones. simpl comps.
  induction a as [|b a IH]; [reflexivity|].
  simpl. rewrite <- seq_shift, filter_map_swap.
  destruct b; simpl; rewrite length_map; now rewrite IH.
Qed.

(** On an assignment of the [n] components the logic leaves 1 in the output
    bit exactly when at least [k] components work. *)
Lemma circuit_output_spec (n : nat) (k : Z) (a : list bool) :
  (0 <= k)%Z -> length a = n ->
  circuit_output num n k a = (k <=? Z.of_nat (ones a))%Z.
Proof.
  intros Hk Hn. unfold circuit_output. rewrite logic_nonnegative by exact Hk.
  destruct (blocks_run (num := num) n (visited n k) (basis_of a))
    as [st [Hrun [_ Hout]]].
  rewrite Hrun, Hout, one_visited_matches by exact Hk.
  fold (successes n (basis_of a)). subst n. rewrite successes_basis_of.
  reflexivity.
Qed.

Lemma length_flat_map_sum {B C : Type} (f : B -> list C) (l : list B) :
  length (flat_map f l) = list_sum (map (fun x => length (f x)) l).
Proof.
  induction l as [|x l IH]; simpl; [reflexivity|].
  now rewrite length_app, IH.
Qed.

Lemma block_one_mcx (n : nat) (sub : list nat) :
  length (filter is_mcx (block (num := num) n sub)) = 1.
Proof.
  unfold block. rewrite !filter_app, !length_app.
  assert (H : forall l : list nat,
             filter is_mcx (map (fun f => X (num := num) (q_components f)) l) = []).
  { intros l. induction l as [|i l IH]; simpl; [reflexivity|exact IH]. }
  rewrite H. reflexivity.
Qed.

Lemma blocks_mcx_count (n : nat) (subsets : list (list nat)) :
  length (filter is_mcx (flat_map (block (num := num) n) subsets)) = length subsets.
Proof.
  induction subsets as [|sub subsets IH]; simpl; [reflexivity|].
  now rewrite filter_app, length_app, block_one_mcx, IH.
Qed.

Lemma filter_ones_false (r : nat) (l : list (list bool)) :
  filter (fun a => ones a =? r) (map (cons false) l)
  = map (cons false) (filter (fun a => ones a =? r) l).
Proof. now rewrite filter_map_swap. Qed.

Lemma filter_ones_true (r : nat) (l : list (list bool)) :
  filter (fun a => ones a =? S r) (map (cons true) l)
  = map (cons true) (filter (fun a => ones a =? r) l).
Proof. now rewrite filter_map_swap. Qed.

Lemma filter_ones_true_zero (l : list (list bool)) :
  filter (fun a => ones a =? 0) (map (cons true) l) = [].
Proof. rewrite filter_map_swap. now rewrite filter_false. Qed.

(** As many subsequences of length [r] as assignments with [r] successes. *)
Lemma subsequences_count {A : Type} (pool : list A) (r : nat) :
  length (subsequences pool r)
  = length (filter (fun a => ones a =? r) (assignments (length pool))).
Proof.
  revert r. induction pool as [|y rest IH]; intros r.
  - destruct r; reflexivity.
  - cbn [length assignments]. rewrite filter_app, length_app.
    destruct r as [|r].
    + rewrite subsequences_zero, filter_ones_false, filter_ones_true_zero.
      rewrite length_map, <- IH, subsequences_zero. reflexivity.
    + cbn [subsequences]. rewrite filter_ones_false, filter_ones_true.
      rewrite length_app, !length_map, !IH. apply Nat.add_comm.
Qed.

Lemma filter_disjoint_length {A : Type} (P Q : A -> bool) (l : list A) :
  (forall x, P x && Q x = false) ->
  length (filter (fun x => P x || Q x) l)
  = length (filter P l) + length (filter Q l).
Proof.
  intros H. induction l as [|x l IH]; [reflexivity|]. simpl.
  specialize (H x). destruct (P x), (Q x); simpl in *; try discriminate; lia.
Qed.

Lemma count_by_size {A : Type} (f : A -> nat) (l : list A) (a len : nat) :
  list_sum (map (fun r => length (filter (fun x => f x =? r) l)) (seq a len))
  = length (filter (fun x => (a <=? f x) && (f x <? a + len)) l).
Proof.
  revert a. induction len as [|len IH]; intros a.
  - simpl. rewrite (filter_ext _ (fun _ => false)), filter_false; [reflexivity|].
    intros x. destruct (a <=? f x) eqn:E1, (f x <? a + 0) eqn:E2; try reflexivity.
    bools_to_props. lia.
  - cbn [seq map].
    match goal with
    | |- list_sum (?x :: ?t) = _ => change (list_sum (x :: t)) with (x + list_sum t)
    end.
    rewrite IH, <- filter_disjoint_length.
    + apply f_equal, filter_ext. intros x.
      destruct (f x =? a) eqn:E1, (S a <=? f x) eqn:E2, (f x <? S a + len) eqn:E3,
               (a <=? f x) eqn:E4, (f x <? a + S len) eqn:E5;
        try reflexivity; bools_to_props; lia.
    + intros x.
      destruct (f x =? a) eqn:E1, (S a <=? f x) eqn:E2; try reflexivity.
      bools_to_props. lia.
Qed.

(** As many subsets visited as assignments with at least [k] successes. *)
Lemma visited_count (n : nat) (k : Z) :
  (0 <= k)%Z ->
  length (visited n k)
  = length (filter (fun a => (k <=? Z.of_nat (ones a))%Z) (assignments n)).
Proof.
  intros Hk. unfold visited. rewrite length_flat_map_sum.
  rewrite (map_ext _ (fun r => length (filter (fun a => ones a =? r) (assignments n))))
    by (intros r; rewrite subsequences_count; unfold range; now rewrite length_seq).
  rewrite count_by_size. f_equal. apply filter_ext_in. intros a Ha.
  apply assignments_complete in Ha. pose proof (ones_le_length a).
  apply Bool.eq_true_iff_eq.
  rewrite andb_true_iff, Nat.leb_le, Nat.ltb_lt, Z.leb_le. lia.
Qed.
End CircuitAndAssignments.

(* ================================================================== *)
(** ** More on the exact estimator *)

Section EstimatorAnyArith.
Context {num : Type} {AR : Arith num}.
Local Open Scope arith_scope.

(** Below 0 the threshold changes nothing: every assignment is counted. *)
Lemma spec_threshold_below_zero (p_list : list num) (k : Z) :
  (k <= 0)%Z -> reliability_spec p_list k = reliability_spec p_list 0.
Proof.
  intros Hk. unfold reliability_spec. do 2 f_equal.
  apply filter_ext. intros a. apply Bool.eq_true_iff_eq. rewrite !Z.leb_le. lia.
Qed.
End EstimatorAnyArith.

Section EstimatorExact.
Context {num : Type} {AR : Arith num} {EX : ExactArith num}.
Local Open Scope arith_scope.

Add Ring estimator_ring : exact_ring.

Lemma spec_permutation (ps qs : list num) :
  Permutation ps qs -> forall k, reliability_spec ps k = reliability_spec qs k.
Proof.
  induction 1 as [|p ps qs _ IH|p q ps|ps qs rs _ IH1 _ IH2]; intros k.
  - reflexivity.
  - now rewrite !spec_cons, !IH.
  - rewrite !spec_cons. ring.
  - now rewrite IH1, IH2.
Qed.

(** At least [k] of [n] work exactly when fewer than [n - k + 1] fail. *)
Lemma spec_duality (ps : list num) (k : Z) :
  reliability_spec ps k
  = one - reliability_spec (map (fun p => one - p) ps)
                           (Z.of_nat (length ps) - k + 1).
Proof.
  revert k. induction ps as [|p ps IH]; intros k.
  - cbn [map length]. rewrite !spec_nil.
    destruct (k <=? 0)%Z eqn:E1, (Z.of_nat 0 - k + 1 <=? 0)%Z eqn:E2; try ring;
      rewrite ?Z.leb_le, ?Z.leb_gt in *; lia.
  - cbn [map length]. rewrite !spec_cons, (IH k), (IH (k - 1)%Z).
    replace (Z.of_nat (S (length ps)) - k + 1)%Z
      with (Z.of_nat (length ps) - (k - 1) + 1)%Z by lia.
    replace (Z.of_nat (length ps) - (k - 1) + 1 - 1)%Z
      with (Z.of_nat (length ps) - k + 1)%Z by lia.
    ring.
Qed.
End EstimatorExact.

Section EstimatorOrdered.
Context {num : Type} {AR : Arith num} {OA : OrderedArith num}.
Local Open Scope arith_scope.

Add Ring estimator_ordered_ring : exact_ring.

Lemma sub_nonneg (x y : num) : x <= y -> zero <= y - x.
Proof.
  intros H. apply (add_le_mono _ _ (zero - x)) in H.
  replace (zero - x + x) with zero in H by ring.
  replace (zero - x + y) with (y - x) in H by ring.
  exact H.
Qed.

Lemma le_of_sub_nonneg (x y : num) : zero <= y - x -> x <= y.
Proof.
  intros H. apply (add_le_mono _ _ x) in H.
  replace (x + zero) with x in H by ring.
  replace (x + (y - x)) with y in H by ring.
  exact H.
Qed.

(** Asking for one success more never raises the reliability. *)
Lemma spec_antitone_step (ps : list num) (k : Z) :
  Forall (fun p => zero <= p /\ p <= one) ps ->
  reliability_spec ps k <= reliability_spec ps (k - 1).
Proof.
  intros Hps. revert k. induction Hps as [|p ps [Hp0 Hp1] _ IH]; intros k.
  - rewrite !spec_nil.
    destruct (k <=? 0)%Z eqn:E1, (k - 1 <=? 0)%Z eqn:E2;
      auto using le_refl, zero_le_one.
    rewrite ?Z.leb_le, ?Z.leb_gt in *. lia.
  - rewrite !spec_cons. apply add_le_both.
    + apply le_of_sub_nonneg.
      replace ((one - p) * reliability_spec ps (k - 1) - (one - p) * reliability_spec ps k)
        with ((one - p) * (reliability_spec ps (k - 1) - reliability_spec ps k)) by ring.
      apply mul_nonneg; [now apply complement_nonneg|apply sub_nonneg, IH].
    + apply le_of_sub_nonneg.
      replace (p * reliability_spec ps (k - 1 - 1) - p * reliability_spec ps (k - 1))
        with (p * (reliability_spec ps (k - 1 - 1) - reliability_spec ps (k - 1))) by ring.
      apply mul_nonneg; [exact Hp0|apply sub_nonneg, IH].
Qed.

Lemma spec_antitone (ps : list num) (k k' : Z) :
  Forall (fun p => zero <= p /\ p <= one) ps ->
  (k <= k')%Z ->
  reliability_spec ps k' <= reliability_spec ps k.
Proof.
  intros Hps Hk.
  replace k' with (k + Z.of_nat (Z.to_nat (k' - k)))%Z by lia.
  induction (Z.to_nat (k' - k)) as [|d IH].
  - replace (k + Z.of_nat 0)%Z with k by lia. apply le_refl.
  - apply le_trans with (reliability_spec ps (k + Z.of_nat d)); [|exact IH].
    replace (k + Z.of_nat d)%Z with (k + Z.of_nat (S d) - 1)%Z by lia.
    now apply spec_antitone_step.
Qed.

(** Better components never lower the reliability. *)
Lemma spec_monotone (ps qs : list num) (k : Z) :
  Forall2 (fun p q => zero <= p /\ p <= q /\ q <= one) ps qs ->
  reliability_spec ps k <= reliability_spec qs k.
Proof.
  intros H. revert k. induction H as [|p q ps qs [Hp0 [Hpq Hq1]] Hrest IH]; intros k.
  - apply le_refl.
  - assert (Hps : Forall (fun p => zero <= p /\ p <= one) ps).
    { clear IH. induction Hrest as [|p' q' ps' qs' [H0 [H1 H2]] _ IHr];
        constructor; [split; [exact H0|now apply le_trans with q']|exact IHr]. }
    rewrite !spec_cons. apply le_of_sub_nonneg.
    replace ((one - q) * reliability_spec qs k + q * reliability_spec qs (k - 1)
             - ((one - p) * reliability_spec ps k + p * reliability_spec ps (k - 1)))
      with ((q - p) * (reliability_spec ps (k - 1) - reliability_spec ps k)
            + ((one - q) * (reliability_spec qs k - reliability_spec ps k)
               + q * (reliability_spec qs (k - 1) - reliability_spec ps (k - 1))))
      by ring.
    assert (Hq0 : zero <= q) by now apply le_trans with p.
    apply add_nonneg; [|apply add_nonneg].
    + apply mul_nonneg; [now apply sub_nonneg|].
      apply sub_nonneg. now apply spec_antitone_step.
    + apply mul_nonneg; [now apply complement_nonneg|apply sub_nonneg, IH].
    + apply mul_nonneg; [exact Hq0|apply sub_nonneg, IH].
Qed.
End EstimatorOrdered.

(* ================================================================== *)
(** ** The circuit and the estimator: further properties *)

Import RealEncoding.

(** X1.  For a non-empty probability vector, building the circuit raises
    (the ValueError of [itertools.combinations], called with [r = k]) exactly
    when [k < 0].  For an empty vector [qc.mcx] is asked for an empty list of
    controls, and what Qiskit does then is outside the model. *)
Theorem circuit_raises_exactly_for_negative_k
        {num : Type} {AR : Arith num} {EN : Encoding num}
        (p_list : list num) (k : Z) :
  p_list <> [] ->
  (reliability_circuit_variable_p p_list k = None <-> (k < 0)%Z).
Proof.
  intros _. unfold reliability_circuit_variable_p. split.
  - intros H. destruct (Z.lt_ge_cases k 0) as [Hk|Hk]; [exact Hk|].
    rewrite logic_nonnegative in H by exact Hk. discriminate H.
  - intros Hk. now rewrite logic_negative.
Qed.

Lemma circuit_raises_exactly_for_negative_k_witness :
  [(/ 2)%R] <> []
  /\ (reliability_circuit_variable_p [(/ 2)%R] (-1) = None <-> (-1 < 0)%Z).
Proof.
  assert (H : [(/ 2)%R] <> []) by discriminate.
  split; [exact H|].
  exact (circuit_raises_exactly_for_negative_k [(/ 2)%R] (-1) H).
Defined.

(** X2.  For [k >= 0] the circuit is the rotations, then gates that act on
    the basis states as the k-out-of-n test, then the measurement: whatever
    the bits of the components, the gates leave them as they were and negate
    the output bit exactly when at least [k] of the [n] components are 1. *)
Theorem circuit_logic_counts_successes
        {num : Type} {AR : Arith num} {EN : Encoding num}
        (p_list : list num) (k : Z) :
  p_list <> [] -> (0 <= k)%Z ->
  exists gates,
    reliability_circuit_variable_p p_list k = Some (encode p_list ++ gates ++ [Measure])
    /\ forall st, exists st',
         run gates st = Some st'
         /\ (forall j, comps st' j = comps st j)
         /\ outb st'
            = xorb (outb st) (k <=? Z.of_nat (successes (length p_list) st))%Z.
Proof.
  intros _ Hk. exists (flat_map (block (length p_list)) (visited (length p_list) k)).
  split.
  - unfold reliability_circuit_variable_p. now rewrite logic_nonnegative.
  - intros st.
    destruct (blocks_run (num := num) (length p_list) (visited (length p_list) k) st)
      as [st' [Hrun [Hc Hout]]].
    exists st'. split; [exact Hrun|]. split; [exact Hc|].
    rewrite Hout, one_visited_matches by exact Hk. reflexivity.
Qed.

Lemma circuit_logic_counts_successes_witness :
  [(/ 2)%R; (/ 2)%R] <> [] /\ (0 <= 1)%Z
  /\ exists gates,
       reliability_circuit_variable_p [(/ 2)%R; (/ 2)%R] 1
       = Some (encode [(/ 2)%R; (/ 2)%R] ++ gates ++ [Measure])
       /\ forall st, exists st',
            run gates st = Some st'
            /\ (forall j, comps st' j = comps st j)
            /\ outb st' = xorb (outb st) (1 <=? Z.of_nat (successes 2 st))%Z.
Proof.
  assert (H : [(/ 2)%R; (/ 2)%R] <> []) by discriminate.
  assert (Hk : (0 <= 1)%Z) by discriminate.
  split; [exact H|]. split; [exact Hk|].
  exact (circuit_logic_counts_successes [(/ 2)%R; (/ 2)%R] 1 H Hk).
Defined.

(** X3.  For [k >= 0] the exact estimator adds the probability masses of
    exactly the assignments on which the logic of the circuit leaves 1 in the
    output bit (in every arithmetic, in the order of [itertools.product]). *)
Theorem estimator_sums_where_circuit_fires
        {num : Type} {AR : Arith num} (p_list : list num) (k : Z) :
  p_list <> [] -> (0 <= k)%Z ->
  k_out_of_n_variable_p_reliability p_list k
  = sum_of (map (mass p_list)
                (filter (circuit_output num (length p_list) k)
                        (assignments (length p_list)))).
Proof.
  intros _ Hk. rewrite loops_are_spec. unfold reliability_spec. do 2 f_equal.
  apply filter_ext_in. intros a Ha. apply assignments_complete in Ha.
  symmetry. now apply circuit_output_spec.
Qed.

Lemma estimator_sums_where_circuit_fires_witness :
  [0.9; 0.8; 0.7]%float <> [] /\ (0 <= 2)%Z
  /\ k_out_of_n_variable_p_reliability [0.9; 0.8; 0.7]%float 2
     = sum_of (map (mass [0.9; 0.8; 0.7]%float)
                   (filter (circuit_output float 3 2) (assignments 3))).
Proof.
  assert (H : [0.9; 0.8; 0.7]%float <> []) by discriminate.
  assert (Hk : (0 <= 2)%Z) by discriminate.
  split; [exact H|]. split; [exact Hk|].
  exact (estimator_sums_where_circuit_fires [0.9; 0.8; 0.7]%float 2 H Hk).
Defined.

(** X4.  For [k >= 0] the circuit holds one multi-controlled X for each
    assignment with at least [k] successes: [2^n] of them for [k = 0], and
    none for [k > n]. *)
Theorem circuit_mcx_count
        {num : Type} {AR : Arith num} {EN : Encoding num}
        (p_list : list num) (k : Z) :
  p_list <> [] -> (0 <= k)%Z ->
  exists circuit,
    reliability_circuit_variable_p p_list k = Some circuit
    /\ length (filter is_mcx circuit)
       = length (filter (fun a => (k <=? Z.of_nat (ones a))%Z)
                        (assignments (length p_list)))
    /\ (k = 0%Z -> length (filter is_mcx circuit) = 2 ^ length p_list)
    /\ ((Z.of_nat (length p_list) < k)%Z -> filter is_mcx circuit = []).
Proof.
  intros _ Hk. unfold reliability_circuit_variable_p.
  rewrite logic_nonnegative by exact Hk. eexists. split; [reflexivity|].
  assert (Hcount :
            length (filter is_mcx
                           (encode p_list
                            ++ flat_map (block (length p_list)) (visited (length p_list) k)
                            ++ [Measure]))
            = length (filter (fun a => (k <=? Z.of_nat (ones a))%Z)
                             (assignments (length p_list)))).
  { rewrite !filter_app, !length_app, blocks_mcx_count, visited_count by exact Hk.
    assert (He : filter is_mcx (encode p_list) = []).
    { unfold encode. induction (combine (range (length p_list)) p_list) as [|ip l IH];
        simpl; [reflexivity|exact IH]. }
    rewrite He. simpl. lia. }
  split; [exact Hcount|]. split.
  - intros ->. rewrite Hcount, <- assignments_length. f_equal.
    rewrite <- (filter_true (assignments (length p_list))) at 2.
    apply filter_ext. intros a. apply Z.leb_le. lia.
  - intros Hn. apply length_zero_iff_nil.
    rewrite Hcount, no_assignment_reaches by exact Hn. reflexivity.
Qed.

Lemma circuit_mcx_count_witness :
  [(/ 2)%R; (/ 2)%R; (/ 2)%R] <> [] /\ (0 <= 2)%Z
  /\ exists circuit,
       reliability_circuit_variable_p [(/ 2)%R; (/ 2)%R; (/ 2)%R] 2 = Some circuit
       /\ length (filter is_mcx circuit) = 4.
Proof.
  assert (H : [(/ 2)%R; (/ 2)%R; (/ 2)%R] <> []) by discriminate.
  assert (Hk : (0 <= 2)%Z) by discriminate.
  split; [exact H|]. split; [exact Hk|].
  destruct (circuit_mcx_count [(/ 2)%R; (/ 2)%R; (/ 2)%R] 2 H Hk)
    as [circuit [Hc [Hn _]]].
  exists circuit. split; [exact Hc|exact Hn].
Defined.

(** X5.  Conditioning on the first component: with it failed the others must
    reach [k], with it working [k - 1] (exact arithmetic).  This recurrence
    computes the same value as the enumeration in [n * k] steps. *)
Theorem conditioning_on_first_component
        {num : Type} {AR : Arith num} {EX : ExactArith num}
        (p : num) (ps : list num) (k : Z) :
  k_out_of_n_variable_p_reliability (p :: ps) k
  = add (mul (sub one p) (k_out_of_n_variable_p_reliability ps k))
        (mul p (k_out_of_n_variable_p_reliability ps (k - 1))).
Proof. rewrite !loops_are_spec. apply spec_cons. Qed.

Lemma conditioning_on_first_component_witness :
  ExactArith Qc
  /\ k_out_of_n_variable_p_reliability [Q2Qc (9 # 10); Q2Qc (8 # 10); Q2Qc (7 # 10)] 2
     = add (mul (sub one (Q2Qc (9 # 10)))
                (k_out_of_n_variable_p_reliability [Q2Qc (8 # 10); Q2Qc (7 # 10)] 2))
           (mul (Q2Qc (9 # 10))
                (k_out_of_n_variable_p_reliability [Q2Qc (8 # 10); Q2Qc (7 # 10)] (2 - 1))).
Proof.
  split; [exact Qc_exact|].
  exact (conditioning_on_first_component
           (EX := Qc_exact) (Q2Qc (9 # 10)) [Q2Qc (8 # 10); Q2Qc (7 # 10)] 2).
Defined.

(** X6.  The order of the components does not matter: permuting the
    probability vector leaves the result unchanged (exact arithmetic). *)
Theorem component_order_is_irrelevant
        {num : Type} {AR : Arith num} {EX : ExactArith num}
        (ps qs : list num) (k : Z) :
  Permutation ps qs ->
  k_out_of_n_variable_p_reliability ps k = k_out_of_n_variable_p_reliability qs k.
Proof. intros H. rewrite !loops_are_spec. now apply spec_permutation. Qed.

Lemma component_order_is_irrelevant_witness :
  ExactArith Qc
  /\ Permutation [Q2Qc (9 # 10); Q2Qc (8 # 10); Q2Qc (7 # 10)]
                 [Q2Qc (8 # 10); Q2Qc (9 # 10); Q2Qc (7 # 10)]
  /\ k_out_of_n_variable_p_reliability [Q2Qc (9 # 10); Q2Qc (8 # 10); Q2Qc (7 # 10)] 2
     = k_out_of_n_variable_p_reliability [Q2Qc (8 # 10); Q2Qc (9 # 10); Q2Qc (7 # 10)] 2.
Proof.
  assert (H : Permutation [Q2Qc (9 # 10); Q2Qc (8 # 10); Q2Qc (7 # 10)]
                          [Q2Qc (8 # 10); Q2Qc (9 # 10); Q2Qc (7 # 10)])
    by apply perm_swap.
  split; [exact Qc_exact|]. split; [exact H|].
  exact (component_order_is_irrelevant (EX := Qc_exact) _ _ 2 H).
Defined.

(** X7.  Raising the threshold never raises the reliability: for
    probabilities in [0, 1] and [k <= k'], the value at [k'] is at most the
    value at [k] (exact ordered arithmetic). *)
Theorem reliability_antitone_in_k
        {num : Type} {AR : Arith num} {OA : OrderedArith num}
        (p_list : list num) (k k' : Z) :
  Forall (fun p => le zero p /\ le p one) p_list ->
  (k <= k')%Z ->
  le (k_out_of_n_variable_p_reliability p_list k')
     (k_out_of_n_variable_p_reliability p_list k).
Proof. intros Hp Hk. rewrite !loops_are_spec. now apply spec_antitone. Qed.

Lemma reliability_antitone_in_k_witness :
  OrderedArith Qc
  /\ Forall (fun p => le zero p /\ le p one) [Q2Qc (9 # 10); Q2Qc (8 # 10); Q2Qc (7 # 10)]
  /\ (1 <= 3)%Z
  /\ le (k_out_of_n_variable_p_reliability
           [Q2Qc (9 # 10); Q2Qc (8 # 10); Q2Qc (7 # 10)] 3)
        (k_out_of_n_variable_p_reliability
           [Q2Qc (9 # 10); Q2Qc (8 # 10); Q2Qc (7 # 10)] 1).
Proof.
  assert (Hp : Forall (fun p : Qc => le zero p /\ le p one)
                      [Q2Qc (9 # 10); Q2Qc (8 # 10); Q2Qc (7 # 10)]).
  { repeat constructor; vm_compute; discriminate. }
  assert (Hk : (1 <= 3)%Z) by discriminate.
  split; [exact Qc_ordered|]. split; [exact Hp|]. split; [exact Hk|].
  exact (reliability_antitone_in_k (OA := Qc_ordered) _ 1 3 Hp Hk).
Defined.

(** X8.  Better components never lower the reliability: when every
    probability is replaced by one at least as large (all in [0, 1]), the
    result does not decrease (exact ordered arithmetic). *)
Theorem reliability_monotone_in_components
        {num : Type} {AR : Arith num} {OA : OrderedArith num}
        (ps qs : list num) (k : Z) :
  Forall2 (fun p q => le zero p /\ le p q /\ le q one) ps qs ->
  le (k_out_of_n_variable_p_reliability ps k)
     (k_out_of_n_variable_p_reliability qs k).
Proof. intros H. rewrite !loops_are_spec. now apply spec_monotone. Qed.

Lemma reliability_monotone_in_components_witness :
  OrderedArith Qc
  /\ Forall2 (fun p q => le zero p /\ le p q /\ le q one)
             [Q2Qc (5 # 10); Q2Qc (6 # 10)] [Q2Qc (7 # 10); Q2Qc (6 # 10)]
  /\ le (k_out_of_n_variable_p_reliability [Q2Qc (5 # 10); Q2Qc (6 # 10)] 1)
        (k_out_of_n_variable_p_reliability [Q2Qc (7 # 10); Q2Qc (6 # 10)] 1).
Proof.
  assert (H : Forall2 (fun p q : Qc => le zero p /\ le p q /\ le q one)
                      [Q2Qc (5 # 10); Q2Qc (6 # 10)] [Q2Qc (7 # 10); Q2Qc (6 # 10)]).
  { repeat constructor; vm_compute; discriminate. }
  split; [exact Qc_ordered|]. split; [exact H|].
  exact (reliability_monotone_in_components (OA := Qc_ordered) _ _ 1 H).
Defined.

(** X9.  A series system: with [k = n] the result is the product of all the
    probabilities, whatever they are (exact arithmetic). *)
Theorem series_system
        {num : Type} {AR : Arith num} {EX : ExactArith num} (p_list : list num) :
  k_out_of_n_variable_p_reliability p_list (Z.of_nat (length p_list))
  = fold_right mul one p_list.
Proof. rewrite loops_are_spec. apply spec_all_succeed. Qed.

Lemma series_system_witness :
  ExactArith Qc
  /\ k_out_of_n_variable_p_reliability [Q2Qc (9 # 10); Q2Qc (8 # 10); Q2Qc (7 # 10)] 3
     = fold_right mul one [Q2Qc (9 # 10); Q2Qc (8 # 10); Q2Qc (7 # 10)].
Proof.
  split; [exact Qc_exact|].
  exact (series_system (EX := Qc_exact) [Q2Qc (9 # 10); Q2Qc (8 # 10); Q2Qc (7 # 10)]).
Defined.

(** X10.  A parallel system: with [k = 1] the result is 1 minus the product
    of the failure probabilities [1 - p_i] (exact arithmetic). *)
Theorem parallel_system
        {num : Type} {AR : Arith num} {EX : ExactArith num} (p_list : list num) :
  k_out_of_n_variable_p_reliability p_list 1
  = sub one (fold_right mul one (map (fun p => sub one p) p_list)).
Proof. rewrite loops_are_spec. apply spec_any_succeeds. Qed.

Lemma parallel_system_witness :
  ExactArith Qc
  /\ k_out_of_n_variable_p_reliability [Q2Qc (9 # 10); Q2Qc (8 # 10); Q2Qc (7 # 10)] 1
     = sub one (fold_right mul one
                           (map (fun p => sub one p)
                                [Q2Qc (9 # 10); Q2Qc (8 # 10); Q2Qc (7 # 10)])).
Proof.
  split; [exact Qc_exact|].
  exact (parallel_system (EX := Qc_exact) [Q2Qc (9 # 10); Q2Qc (8 # 10); Q2Qc (7 # 10)]).
Defined.

(** X11.  The threshold is not checked: a negative [k] gives what [k = 0]
    gives, to the last bit, in every arithmetic (the circuit of X1 cannot be
    built for it). *)
Theorem negative_threshold_is_zero_threshold
        {num : Type} {AR : Arith num} (p_list : list num) (k : Z) :
  (k <= 0)%Z ->
  k_out_of_n_variable_p_reliability p_list k
  = k_out_of_n_variable_p_reliability p_list 0.
Proof. intros Hk. rewrite !loops_are_spec. now apply spec_threshold_below_zero. Qed.

Lemma negative_threshold_is_zero_threshold_witness :
  (-3 <= 0)%Z
  /\ k_out_of_n_variable_p_reliability [0.3; 0.3]%float (-3)
     = k_out_of_n_variable_p_reliability [0.3; 0.3]%float 0.
Proof.
  assert (Hk : (-3 <= 0)%Z) by discriminate.
  split; [exact Hk|].
  exact (negative_threshold_is_zero_threshold [0.3; 0.3]%float (-3) Hk).
Defined.

(** X12.  At least [k] of [n] components work exactly when fewer than
    [n - k + 1] fail: the result is 1 minus the result for the failure
    probabilities [1 - p_i] and the threshold [n - k + 1] (exact arithmetic). *)
Theorem success_failure_duality
        {num : Type} {AR : Arith num} {EX : ExactArith num}
        (p_list : list num) (k : Z) :
  k_out_of_n_variable_p_reliability p_list k
  = sub one (k_out_of_n_variable_p_reliability
               (map (fun p => sub one p) p_list)
               (Z.of_nat (length p_list) - k + 1)).
Proof. rewrite !loops_are_spec. apply spec_duality. Qed.

Lemma success_failure_duality_witness :
  ExactArith Qc
  /\ k_out_of_n_variable_p_reliability [Q2Qc (9 # 10); Q2Qc (8 # 10); Q2Qc (7 # 10)] 2
     = sub one (k_out_of_n_variable_p_reliability
                  (map (fun p => sub one p)
                       [Q2Qc (9 # 10); Q2Qc (8 # 10); Q2Qc (7 # 10)])
                  (3 - 2 + 1)).
Proof.
  split; [exact Qc_exact|].
  exact (success_failure_duality
           (EX := Qc_exact) [Q2Qc (9 # 10); Q2Qc (8 # 10); Q2Qc (7 # 10)] 2).
Defined.

(** X13.  With no component the only assignment is the empty one: the result
    is [0.0 + 1.0] for [k <= 0] and [0.0] for [k >= 1], in every arithmetic. *)
Theorem empty_vector {num : Type} {AR : Arith num} (k : Z) :
  k_out_of_n_variable_p_reliability (@nil num) k
  = if (k <=? 0)%Z then add zero one else zero.
Proof.
  unfold k_out_of_n_variable_p_reliability. simpl.
  unfold accumulate, sum, assignment_prob. simpl.
  rewrite Z.geb_leb. reflexivity.
Qed.


(* ================================================================== *)
(** ** run_simulation: when it returns, and what *)

Section RunFacts.
Context {num : Type} {AR : Arith num} {EN : Encoding num} {EXT : External num}.
Local Open Scope arith_scope.

(** The proportions of ones of the successive batches. *)
Definition batch_proportions (p_list : list num) (k num_simulations numshots : Z)
  : list num :=
  map (fun sim_idx =>
         of_int (counts_of_ones p_list k numshots sim_idx) / of_int numshots)
      (seq 0 (Z.to_nat num_simulations)).

Lemma collect_all_returned {A E : Type} (body : nat -> E + A) (f : nat -> A)
      (indices : list nat) :
  (forall i, In i indices -> body i = inr (f i)) ->
  collect body indices = inr (map f indices).
Proof.
  induction indices as [|i rest IH]; intros H; simpl; [reflexivity|].
  rewrite (H i (or_introl eq_refl)), IH; [reflexivity|].
  intros j Hj. apply H. now right.
Qed.

Lemma quantum_probs_returned (p_list : list num) (k num_simulations numshots : Z) :
  numshots <> 0%Z ->
  quantum_probs p_list k num_simulations numshots
  = inr (batch_proportions p_list k num_simulations numshots).
Proof.
  intros Hs. unfold quantum_probs, batch_proportions.
  apply collect_all_returned. intros i _.
  unfold quantum_prob, int_true_div.
  now replace (numshots =? 0)%Z with false by (symmetry; now apply Z.eqb_neq).
Qed.

Lemma quantum_probs_no_batch (p_list : list num) (k num_simulations numshots : Z) :
  (num_simulations <= 0)%Z ->
  quantum_probs p_list k num_simulations numshots = inr [].
Proof.
  intros Hm. unfold quantum_probs.
  now replace (Z.to_nat num_simulations) with 0 by lia.
Qed.

Lemma batch_proportions_length (p_list : list num) (k num_simulations numshots : Z) :
  length (batch_proportions p_list k num_simulations numshots)
  = Z.to_nat num_simulations.
Proof. unfold batch_proportions. now rewrite length_map, length_seq. Qed.

Lemma circuit_is_built (p_list : list num) (k : Z) :
  (0 <= k)%Z ->
  exists qc, reliability_circuit_variable_p p_list k = Some qc.
Proof.
  intros Hk. unfold reliability_circuit_variable_p.
  rewrite logic_nonnegative by exact Hk. eexists. reflexivity.
Qed.

(** With a threshold that is not negative and a number of shots that is not
    0, the simulator returning its counts, the call returns: the record is
    the statistics of the batch proportions. *)
Lemma run_simulation_returns (p_list : list num) (k num_simulations numshots : Z)
      (confidence_level : num) :
  (0 <= k)%Z -> numshots <> 0%Z ->
  run_simulation p_list k num_simulations numshots confidence_level
  = inr (statistics (k_out_of_n_variable_p_reliability p_list k)
                    (batch_proportions p_list k num_simulations numshots)
                    num_simulations confidence_level).
Proof.
  intros Hk Hs. unfold run_simulation.
  destruct (circuit_is_built p_list k Hk) as [qc ->].
  now rewrite quantum_probs_returned.
Qed.

(** With no batch to run, the number of shots is never used. *)
Lemma run_simulation_no_batch (p_list : list num) (k num_simulations numshots : Z)
      (confidence_level : num) :
  (0 <= k)%Z -> (num_simulations <= 0)%Z ->
  run_simulation p_list k num_simulations numshots confidence_level
  = inr (statistics (k_out_of_n_variable_p_reliability p_list k) []
                    num_simulations confidence_level).
Proof.
  intros Hk Hm. unfold run_simulation.
  destruct (circuit_is_built p_list k Hk) as [qc ->].
  now rewrite quantum_probs_no_batch.
Qed.

(** A negative threshold stops the call at line 61, before any batch. *)
Lemma run_simulation_negative_k (p_list : list num) (k num_simulations numshots : Z)
      (confidence_level : num) :
  (k < 0)%Z ->
  run_simulation p_list k num_simulations numshots confidence_level
  = inl ValueError.
Proof.
  intros Hk. unfold run_simulation, reliability_circuit_variable_p.
  now rewrite logic_negative.
Qed.

(** With 0 shots the first batch raises at line 79. *)
Lemma run_simulation_zero_shots (p_list : list num) (k num_simulations : Z)
      (confidence_level : num) :
  (0 <= k)%Z -> (0 < num_simulations)%Z ->
  run_simulation p_list k num_simulations 0 confidence_level
  = inl ZeroDivisionError.
Proof.
  intros Hk Hm. unfold run_simulation.
  destruct (circuit_is_built p_list k Hk) as [qc ->].
  unfold quantum_probs.
  destruct (Z.to_nat num_simulations) as [|m] eqn:E; [lia|]. reflexivity.
Qed.
End RunFacts.

(** C3.  For every batch count [m > 1], every confidence level and every
    sequence of batch proportions, [run_simulation] returns (the threshold
    not negative, the shots positive, the vector not empty) and the bounds of
    its interval are [mean - t * (s / sqrt m)] and [mean + t * (s / sqrt m)],
    with [mean] and [s] numpy's mean and standard deviation ([ddof = 1]) of
    the [m] batch proportions and [t] the Student-t quantile at
    [(1 + confidence_level) / 2] with [m - 1] degrees of freedom. *)
Theorem ci_is_mean_plus_minus_t_se
        {num : Type} {AR : Arith num} {EN : Encoding num} {EXT : External num}
        (p_list : list num) (k num_simulations numshots : Z) (confidence_level : num) :
  p_list <> [] -> (0 <= k)%Z -> (0 < numshots)%Z ->
  (1 < num_simulations)%Z ->
  let batches := batch_proportions p_list k num_simulations numshots in
  let t := t_ppf (div (add one confidence_level) (of_int 2)) (num_simulations - 1) in
  let s := np_std_ddof1 batches in
  exists r,
    run_simulation p_list k num_simulations numshots confidence_level = inr r
    /\ length batches = Z.to_nat num_simulations
    /\ quantum_mean r = np_mean batches
    /\ quantum_std r = s
    /\ ci_lower r = sub (np_mean batches) (mul t (div s (np_sqrt num_simulations)))
    /\ ci_upper r = add (np_mean batches) (mul t (div s (np_sqrt num_simulations))).
Proof.
  intros _ Hk Hs Hm batches t s. subst batches t s.
  eexists. split; [apply run_simulation_returns; [exact Hk|lia]|].
  split; [apply batch_proportions_length|].
  unfold statistics. cbn.
  apply Z.gtb_lt in Hm. rewrite Hm. cbn. repeat split.
Qed.

Lemma ci_is_mean_plus_minus_t_se_witness :
  [1%float] <> [] /\ (0 <= 1)%Z /\ (0 < 8192)%Z /\ (1 < 2)%Z
  /\ exists r,
       run_simulation (EXT := recorded [8192; 8192]%Z) [1%float] 1 2 8192 0.5%float
       = inr r
       /\ ci_lower r = 1%float /\ ci_upper r = 1%float.
Proof.
  assert (Hp : [1%float] <> []) by discriminate.
  assert (Hk : (0 <= 1)%Z) by discriminate.
  assert (Hs : (0 < 8192)%Z) by reflexivity.
  assert (Hm : (1 < 2)%Z) by reflexivity.
  split; [exact Hp|]. split; [exact Hk|]. split; [exact Hs|]. split; [exact Hm|].
  destruct (ci_is_mean_plus_minus_t_se
              (EXT := recorded [8192; 8192]%Z) [1%float] 1 2 8192 0.5%float
              Hp Hk Hs Hm) as [r [Hr [_ [_ [_ [Hlo Hup]]]]]].
  exists r. split; [exact Hr|]. split; [exact Hlo|exact Hup].
Defined.

(** C5.  With one batch [run_simulation] returns (the threshold not
    negative, the shots positive, the vector not empty) and both bounds of
    the interval equal the point estimate: the mean, which is the proportion
    of the only batch (numpy's mean of that single value being the value);
    the standard deviation is 0. *)
Theorem single_batch_interval
        {num : Type} {AR : Arith num} {EN : Encoding num} {EXT : External num}
        (p_list : list num) (k numshots : Z) (confidence_level : num) :
  p_list <> [] -> (0 <= k)%Z -> (0 < numshots)%Z ->
  let x := div (of_int (counts_of_ones p_list k numshots 0)) (of_int numshots) in
  np_mean [x] = x ->
  exists r,
    run_simulation p_list k 1 numshots confidence_level = inr r
    /\ quantum_mean r = x /\ ci_lower r = x /\ ci_upper r = x
    /\ ci_lower r = quantum_mean r /\ ci_upper r = quantum_mean r
    /\ quantum_std r = zero.
Proof.
  intros _ Hk Hs x Hmean.
  eexists. split; [apply run_simulation_returns; [exact Hk|lia]|].
  unfold statistics, batch_proportions.
  change (seq 0 (Z.to_nat 1)) with [0]. cbn [map]. fold x. rewrite Hmean.
  cbn. repeat split.
Qed.

Lemma single_batch_interval_witness :
  [1%float] <> [] /\ (0 <= 1)%Z /\ (0 < 8192)%Z
  /\ np_mean (External := recorded [8192%Z]) [1%float] = 1%float
  /\ exists r,
       run_simulation (EXT := recorded [8192%Z]) [1%float] 1 1 8192 0.95%float
       = inr r
       /\ quantum_mean r = 1%float /\ ci_lower r = 1%float /\ ci_upper r = 1%float.
Proof.
  assert (Hp : [1%float] <> []) by discriminate.
  assert (Hk : (0 <= 1)%Z) by discriminate.
  assert (Hs : (0 < 8192)%Z) by reflexivity.
  assert (Hx : np_mean (External := recorded [8192%Z]) [1%float] = 1%float)
    by reflexivity.
  split; [exact Hp|]. split; [exact Hk|]. split; [exact Hs|]. split; [exact Hx|].
  edestruct (single_batch_interval
               (EXT := recorded [8192%Z]) [1%float] 1 8192 0.95%float
               Hp Hk Hs) as [r [Hr [Hmean [Hlo [Hup _]]]]];
    [vm_compute; reflexivity|].
  exists r. split; [exact Hr|]. split; [exact Hmean|]. split; [exact Hlo|exact Hup].
Defined.

(* ================================================================== *)
(** ** run_simulation on binary64 *)

(** A quotient by a divisor that compares equal to zero is no finite number
    in IEEE 754: nan (0/0, or a nan dividend) or an infinity; numpy stores it
    and warns.  100 times it is no finite number either. *)
Section ZeroDivisorBinary64.
Local Open Scope float_scope.

Lemma zero_divisor_spec (y : float) :
  (y =? 0) = true -> exists s, Prim2SF y = S754_zero s.
Proof.
  rewrite FloatAxioms.eqb_spec. unfold SFeqb.
  change (Prim2SF 0) with (S754_zero false).
  destruct (Prim2SF y) as [s|s| |s m e]; simpl; try discriminate.
  - intros _. now exists s.
  - destruct s; discriminate.
  - destruct s; discriminate.
Qed.

Lemma not_finite_spec (x : float) :
  not_finite x = true <->
  Prim2SF x = S754_nan \/ exists s, Prim2SF x = S754_infinity s.
Proof.
  unfold not_finite, is_nan, is_infinity.
  rewrite !FloatAxioms.eqb_spec, abs_spec. unfold SFeqb.
  change (Prim2SF infinity) with (S754_infinity false).
  destruct (Prim2SF x) as [s|s| |s m e]; simpl.
  - split; [discriminate|intros [H|[s' H]]; discriminate].
  - split; [intros _; right; now exists s|intros _; apply orb_true_r].
  - split; [intros _; now left|reflexivity].
  - rewrite Z.compare_refl, Pos.compare_cont_refl.
    destruct s; simpl; (split; [discriminate|intros [H|[s' H]]; discriminate]).
Qed.

Lemma quotient_by_zero_binary64 (x y : float) :
  is_zero y = true -> not_finite (x / y) = true.
Proof.
  intros Hy. destruct (zero_divisor_spec y Hy) as [s Hs].
  apply not_finite_spec. rewrite div_spec, Hs. unfold SF64div, SFdiv.
  destruct (Prim2SF x) as [sx|sx| |sx m e]; eauto.
Qed.

Lemma percent_not_finite (q : float) :
  not_finite q = true -> not_finite (q * of_int 100) = true.
Proof.
  rewrite !not_finite_spec, mul_spec.
  intros [H|[s H]]; rewrite H; [now left|right].
  vm_compute. eauto.
Qed.
End ZeroDivisorBinary64.

(** C2.  Whenever the exact probability compares equal to zero and the call
    reaches its statistics (the threshold not negative, the shots positive,
    the vector not empty), [run_simulation] returns a record whose relative
    error is [abs(mean - exact) / exact * 100] with that zero as the divisor:
    nothing guards it, and the value stored is nan or an infinity, whatever
    the batch count, the confidence level and the measurements. *)
Theorem relative_error_divides_by_zero
        {EN : Encoding float} {EXT : External float}
        (p_list : list float) (k num_simulations numshots : Z)
        (confidence_level : float) :
  p_list <> [] -> (0 <= k)%Z -> (0 < numshots)%Z ->
  is_zero (k_out_of_n_variable_p_reliability p_list k) = true ->
  exists r,
    run_simulation p_list k num_simulations numshots confidence_level = inr r
    /\ classical r = k_out_of_n_variable_p_reliability p_list k
    /\ relative_error r
       = mul (div (absolute (sub (quantum_mean r) (classical r))) (classical r))
             (of_int 100)
    /\ not_finite (relative_error r) = true.
Proof.
  intros _ Hk Hs Hz.
  eexists. split; [apply run_simulation_returns; [exact Hk|lia]|].
  split; [reflexivity|]. split; [reflexivity|].
  unfold statistics. cbn [relative_error].
  apply percent_not_finite, quotient_by_zero_binary64. exact Hz.
Qed.

Lemma relative_error_divides_by_zero_witness :
  [0%float] <> [] /\ (0 <= 1)%Z /\ (0 < 8192)%Z
  /\ is_zero (k_out_of_n_variable_p_reliability [0%float] 1) = true
  /\ exists r,
       run_simulation (EXT := recorded [0; 0]%Z) [0%float] 1 2 8192 0.95%float
       = inr r
       /\ relative_error r = nan.
Proof.
  assert (Hp : [0%float] <> []) by discriminate.
  assert (Hk : (0 <= 1)%Z) by discriminate.
  assert (Hs : (0 < 8192)%Z) by reflexivity.
  assert (Hz : is_zero (k_out_of_n_variable_p_reliability [0%float] 1) = true)
    by reflexivity.
  split; [exact Hp|]. split; [exact Hk|]. split; [exact Hs|]. split; [exact Hz|].
  destruct (relative_error_divides_by_zero
              (EXT := recorded [0; 0]%Z) [0%float] 1 2 8192 0.95%float
              Hp Hk Hs Hz) as [r [Hr [_ [Hrel _]]]].
  exists r. split; [exact Hr|].
  vm_compute in Hr. injection Hr as <-. reflexivity.
Defined.

(** X14.  With no batch ([num_simulations <= 0]; the threshold not negative,
    the vector not empty) [run_simulation] measures nothing and returns
    without raising, whatever the number of shots, 0 included.  numpy's mean
    of the empty array being nan, the mean and both bounds of the interval
    are nan, and the standard deviation is reported as 0. *)
Theorem no_batches_binary64
        {EN : Encoding float} {EXT : External float}
        (p_list : list float) (k num_simulations numshots : Z)
        (confidence_level : float) :
  p_list <> [] -> (0 <= k)%Z -> (num_simulations <= 0)%Z ->
  np_mean [] = nan ->
  exists r,
    run_simulation p_list k num_simulations numshots confidence_level = inr r
    /\ quantum_mean r = nan /\ ci_lower r = nan /\ ci_upper r = nan
    /\ quantum_std r = 0%float.
Proof.
  intros _ Hk Hm Hnan.
  eexists. split; [now apply run_simulation_no_batch|].
  unfold statistics.
  replace (num_simulations >? 1)%Z with false
    by (symmetry; rewrite Z.gtb_ltb; apply Z.ltb_ge; lia).
  cbn. rewrite Hnan. repeat split.
Qed.

Lemma no_batches_binary64_witness :
  [1%float] <> [] /\ (0 <= 1)%Z /\ (0 <= 0)%Z
  /\ np_mean (External := recorded []) [] = nan
  /\ exists r,
       run_simulation (EXT := recorded []) [1%float] 1 0 0 0.95%float = inr r
       /\ quantum_mean r = nan.
Proof.
  assert (Hp : [1%float] <> []) by discriminate.
  assert (Hk : (0 <= 1)%Z) by discriminate.
  assert (Hm : (0 <= 0)%Z) by discriminate.
  assert (Hn : np_mean (External := recorded []) [] = nan) by reflexivity.
  split; [exact Hp|]. split; [exact Hk|]. split; [exact Hm|]. split; [exact Hn|].
  destruct (no_batches_binary64 (EXT := recorded []) [1%float] 1 0 0 0.95%float
                                Hp Hk Hm Hn) as [r [Hr [Hmean _]]].
  exists r. split; [exact Hr|exact Hmean].
Defined.


(* ================================================================== *)
(** ** The order of binary64 sums, differences, products and quotients

    [mean - ci_length <= mean <= mean + ci_length] is a fact about rounding:
    it is derived here from the specification the primitive floats obey
    ([SpecFloat], Flocq's binary format), for every precision. *)

(** Powers of two are atoms for the arithmetic procedures. *)
Ltac hide_powers :=
  repeat match goal with
  | |- context [Z.pow 2 ?k] =>
      let p := fresh "pow" in set (p := Z.pow 2 k) in *; clearbody p
  | H : context [Z.pow 2 ?k] |- _ =>
      let p := fresh "pow" in set (p := Z.pow 2 k) in *; clearbody p
  end.

Section Rounding.
Variables prec emax : Z.
Hypothesis prec_positive : (0 < prec)%Z.
Local Open Scope Z_scope.
Local Abbreviation fexp := (SpecFloat.fexp prec emax).
Local Abbreviation emin := (SpecFloat.emin prec emax).

Lemma two_power_positive (k : Z) : 0 <= k -> 0 < 2 ^ k.
Proof. intros Hk. apply Z.pow_pos_nonneg; lia. Qed.

Lemma two_power_add (a b : Z) : 0 <= a -> 0 <= b -> 2 ^ (a + b) = 2 ^ a * 2 ^ b.
Proof. intros. now apply Z.pow_add_r. Qed.

Lemma two_power_lt (a b : Z) : 0 <= b -> 2 ^ a < 2 ^ b -> a < b.
Proof. intros Hb H. apply (Z.pow_lt_mono_r_iff 2); [lia|exact Hb|exact H]. Qed.

Lemma digits2_pos_bounds (m : positive) :
  2 ^ (Zpos (digits2_pos m) - 1) <= Zpos m < 2 ^ Zpos (digits2_pos m).
Proof.
  induction m as [m IH|m IH|]; cbn [digits2_pos].
  - rewrite Pos2Z.inj_succ, (Pos2Z.inj_xI m).
    replace (Z.succ (Zpos (digits2_pos m)) - 1)
      with (Z.succ (Zpos (digits2_pos m) - 1)) by lia.
    rewrite !Z.pow_succ_r by lia. hide_powers. lia.
  - rewrite Pos2Z.inj_succ, (Pos2Z.inj_xO m).
    replace (Z.succ (Zpos (digits2_pos m)) - 1)
      with (Z.succ (Zpos (digits2_pos m) - 1)) by lia.
    rewrite !Z.pow_succ_r by lia. hide_powers. lia.
  - cbn. lia.
Qed.

(** The number of digits orders scaled mantissas. *)
Lemma digits_scaled_le (a b : positive) (ka kb : Z) :
  0 <= ka -> 0 <= kb ->
  Zpos a * 2 ^ ka <= Zpos b * 2 ^ kb ->
  Zpos (digits2_pos a) + ka <= Zpos (digits2_pos b) + kb.
Proof.
  intros Hka Hkb H.
  destruct (digits2_pos_bounds a) as [La _].
  destruct (digits2_pos_bounds b) as [_ Ub].
  assert (Hlt : 2 ^ (Zpos (digits2_pos a) - 1 + ka)
                < 2 ^ (Zpos (digits2_pos b) + kb)).
  { rewrite !two_power_add by lia.
    pose proof (two_power_positive ka Hka).
    pose proof (two_power_positive kb Hkb).
    hide_powers. nia. }
  apply two_power_lt in Hlt; lia.
Qed.

Lemma iter_xO_value (m d : positive) :
  Zpos (Pos.iter xO m d) = Zpos m * 2 ^ Zpos d.
Proof.
  induction d as [|d IH] using Pos.peano_ind.
  - cbn. lia.
  - rewrite Pos.iter_succ, (Pos2Z.inj_xO (Pos.iter xO m d)), IH, Pos2Z.inj_succ,
      Z.pow_succ_r by lia. hide_powers. lia.
Qed.

Lemma shl_align_spec (m : positive) (e e' : Z) :
  let ez := Z.min e e' in
  snd (shl_align m e e') = ez
  /\ Zpos (fst (shl_align m e e')) = Zpos m * 2 ^ (e - ez).
Proof.
  unfold shl_align. destruct (e' - e) as [|d|d] eqn:Hd; cbn [fst snd].
  - replace (Z.min e e') with e by lia. rewrite Z.sub_diag. cbn. lia.
  - replace (Z.min e e') with e by lia. rewrite Z.sub_diag. cbn. lia.
  - replace (Z.min e e') with e' by lia. split; [reflexivity|].
    rewrite iter_xO_value. f_equal. f_equal. lia.
Qed.

(** Right shifts. *)
Lemma iter_pos_invariant {A : Type} (f : A -> A) (P : Z -> A -> Prop) :
  (forall k x, 0 <= k -> P k x -> P (k + 1) (f x)) ->
  forall p k x, 0 <= k -> P k x -> P (k + Zpos p) (iter_pos f p x).
Proof.
  intros step. induction p as [p IH|p IH|]; intros k x Hk HP; cbn [iter_pos].
  - replace (k + Zpos p~1) with (k + 1 + Zpos p + Zpos p) by lia.
    apply IH; [lia|]. apply IH; [lia|]. now apply step.
  - replace (k + Zpos p~0) with (k + Zpos p + Zpos p) by lia.
    apply IH; [lia|]. now apply IH.
  - now apply step.
Qed.

Lemma shr_1_spec (r : shr_record) :
  0 <= shr_m r ->
  shr_m (shr_1 r) = shr_m r / 2
  /\ shr_r (shr_1 r) = Z.odd (shr_m r)
  /\ shr_s (shr_1 r) = (shr_r r || shr_s r)%bool.
Proof.
  destruct r as [m r s]. cbn [shr_m shr_r shr_s].
  rewrite <- Z.div2_div.
  destruct m as [|[p|p|]|p]; cbn; intros H; repeat split; lia.
Qed.

Lemma shr_nonneg (r : shr_record) (e n : Z) :
  0 <= shr_m r -> 0 <= shr_m (fst (shr r e n)).
Proof.
  intros H. unfold shr. destruct n as [|p|p]; cbn [fst]; try exact H.
  apply (iter_pos_invariant shr_1 (fun _ x => 0 <= shr_m x)) with (k := 0);
    [|lia|exact H].
  intros k x _ Hx. destruct (shr_1_spec x Hx) as [-> _].
  apply Z.div_pos; lia.
Qed.

Lemma shr_exact (m e n : Z) :
  0 <= m -> 0 <= n ->
  let r := fst (shr (Build_shr_record m false false) e n) in
  snd (shr (Build_shr_record m false false) e n) = e + n
  /\ shr_m r = m / 2 ^ n
  /\ (m mod 2 ^ n = 0 -> loc_of_shr_record r = loc_Exact).
Proof.
  intros Hm Hn. unfold shr. destruct n as [|p|p]; cbn [fst snd]; try lia.
  - cbn. rewrite Z.div_1_r. repeat split; lia.
  - split; [reflexivity|].
    pose (P := fun k x => 0 <= shr_m x /\ shr_m x = m / 2 ^ k
                          /\ (m mod 2 ^ k = 0 ->
                              shr_r x = false /\ shr_s x = false)).
    assert (H : P (0 + Zpos p) (iter_pos shr_1 p (Build_shr_record m false false))).
    { apply iter_pos_invariant; [|lia|].
      - intros k x Hk (Hx & Hdiv & Hloc).
        destruct (shr_1_spec x Hx) as (E1 & E2 & E3).
        pose proof (two_power_positive k Hk) as Hpow.
        unfold P. rewrite E1, E2, E3, Hdiv.
        split; [apply Z.div_pos; [apply Z.div_pos|]; lia|].
        split.
        + rewrite Z.pow_add_r, Z.div_div by lia. reflexivity.
        + intros Hmod. rewrite Z.pow_add_r in Hmod by lia.
          change (2 ^ 1) with 2 in Hmod.
          assert (Hk0 : m mod 2 ^ k = 0).
          { apply Z.mod_divide in Hmod; [|lia].
            apply Z.mod_divide; [lia|].
            destruct Hmod as [q Hq]. exists (q * 2). hide_powers. lia. }
          destruct (Hloc Hk0) as [-> ->]. split; [|reflexivity].
          apply Z.mod_divide in Hmod; [|lia]. destruct Hmod as [q Hq].
          replace (m / 2 ^ k) with (2 * q).
          * rewrite Z.odd_mul. reflexivity.
          * apply Z.div_unique_exact; [lia|]. hide_powers. lia.
      - unfold P. cbn [shr_m shr_r shr_s]. rewrite Z.div_1_r.
        repeat split; lia. }
    destruct H as (_ & Hdiv & Hloc). rewrite Z.add_0_l in *.
    split; [exact Hdiv|].
    intros Hmod. destruct (Hloc Hmod) as [Hr Hs].
    destruct (iter_pos shr_1 p _) as [m' r' s']. cbn in Hr, Hs. subst.
    reflexivity.
Qed.

Lemma round_nearest_even_spec (m : Z) (l : location) :
  round_nearest_even m l = m
  \/ (round_nearest_even m l = m + 1 /\ l <> loc_Exact).
Proof.
  destruct l as [|[| |]]; cbn; [now left|..].
  - destruct (Z.even m); [now left|right; split; [reflexivity|discriminate]].
  - now left.
  - right. split; [reflexivity|discriminate].
Qed.

(** What [binary_round_aux] builds from the rounded mantissa [m1] at the
    exponent [E]: a mantissa of [prec + 1] digits is [2 ^ prec], and moves to
    the next exponent. *)
Definition assemble (s : bool) (m1 E : Z) : spec_float :=
  if m1 =? 0 then S754_zero s
  else if m1 <? 2 ^ prec
       then if E <=? emax - prec
            then S754_finite s (Z.to_pos m1) E else S754_infinity s
       else if E + 1 <=? emax - prec
            then S754_finite s (Z.to_pos (2 ^ (prec - 1))) (E + 1)
            else S754_infinity s.

Lemma match_positive {A : Type} (z : Z) (a c : A) (f : positive -> A) :
  0 < z ->
  match z with Z0 => a | Zpos m => f m | Zneg _ => c end = f (Z.to_pos z).
Proof. destruct z; [lia|reflexivity|lia]. Qed.

Lemma fexp_le_self (d E : Z) : d <= prec -> emin <= E -> fexp (d + E) <= E.
Proof. unfold SpecFloat.fexp. lia. Qed.

Lemma digits_below (m : positive) (k : Z) :
  0 <= k -> Zpos m < 2 ^ k -> Zpos (digits2_pos m) <= k.
Proof.
  intros Hk H. destruct (digits2_pos_bounds m) as [L _].
  assert (Hlt : 2 ^ (Zpos (digits2_pos m) - 1) < 2 ^ k) by lia.
  apply two_power_lt in Hlt; lia.
Qed.

Lemma digits_of_power (m : positive) (k : Z) :
  0 <= k -> Zpos m = 2 ^ k -> Zpos (digits2_pos m) = k + 1.
Proof.
  intros Hk H. destruct (digits2_pos_bounds m) as [L U]. rewrite H in L, U.
  assert (Zpos (digits2_pos m) <= k + 1).
  { apply digits_below; [lia|]. rewrite H, Z.pow_add_r by lia.
    change (2 ^ 1) with 2. pose proof (two_power_positive k Hk).
    hide_powers. lia. }
  apply two_power_lt in U; lia.
Qed.

Lemma second_shift (s : bool) (m1 E : Z) :
  0 <= m1 <= 2 ^ prec -> emin <= E ->
  (let '(mrs, e) := shr_fexp prec emax m1 E loc_Exact in
   match shr_m mrs with
   | Z0 => S754_zero s
   | Zpos m => if e <=? emax - prec then S754_finite s m e
               else S754_infinity s
   | Zneg _ => S754_nan
   end) = assemble s m1 E.
Proof.
  intros [Hlo Hhi] HE. unfold assemble, shr_fexp.
  cbn [shr_record_of_loc].
  destruct (Z.eqb_spec m1 0) as [->|Hnz].
  - cbn [Zdigits2]. unfold shr.
    assert (H : fexp (0 + E) - E <= 0)
      by (pose proof (fexp_le_self 0 E); lia).
    destruct (fexp (0 + E) - E); [reflexivity|lia|reflexivity].
  - destruct m1 as [|m|m]; [lia| |lia]. cbn [Zdigits2].
    destruct (Z.ltb_spec (Zpos m) (2 ^ prec)) as [Hlt|Hge].
    + assert (Hd : Zpos (digits2_pos m) <= prec)
        by (apply digits_below; lia).
      pose proof (fexp_le_self _ E Hd HE) as H. unfold shr.
      destruct (fexp (Zpos (digits2_pos m) + E) - E) eqn:Hsh;
        [reflexivity|lia|reflexivity].
    + assert (Heq : Zpos m = 2 ^ prec) by lia.
      assert (Hd : Zpos (digits2_pos m) = prec + 1)
        by (apply digits_of_power; lia).
      rewrite Hd.
      replace (fexp (prec + 1 + E) - E) with 1 by (unfold SpecFloat.fexp; lia).
      unfold shr. cbn [iter_pos].
      destruct (shr_1_spec (Build_shr_record (Zpos m) false false)) as [Hm _];
        [cbn; lia|].
      cbn [shr_m] in Hm. rewrite Hm, Heq.
      assert (Hhalf : 2 ^ prec / 2 = 2 ^ (prec - 1)).
      { replace prec with (prec - 1 + 1) at 1 by lia.
        rewrite Z.pow_add_r by lia. change (2 ^ 1) with 2.
        apply Z.div_mul. lia. }
      rewrite Hhalf.
      rewrite (match_positive (2 ^ (prec - 1)));
        [reflexivity|apply two_power_positive; lia].
Qed.

(** With a mantissa that is not negative the result has the sign asked for:
    it is no nan. *)
Definition has_sign (s : bool) (x : spec_float) : Prop :=
  x = S754_zero s \/ x = S754_infinity s
  \/ exists m e, x = S754_finite s m e.

Lemma binary_round_aux_sign (s : bool) (m e : Z) (l : location) :
  0 <= m -> has_sign s (binary_round_aux prec emax s m e l).
Proof.
  intros Hm. unfold binary_round_aux, shr_fexp.
  assert (H0 : 0 <= shr_m (shr_record_of_loc m l))
    by (destruct l as [|[| |]]; exact Hm).
  pose proof (shr_nonneg _ e (fexp (Zdigits2 m + e) - e) H0) as H1.
  destruct (shr _ e _) as [mrs e']. cbn [fst] in H1.
  set (m1 := round_nearest_even (shr_m mrs) (loc_of_shr_record mrs)).
  assert (Hm1 : 0 <= m1)
    by (unfold m1; destruct (round_nearest_even_spec (shr_m mrs)
                               (loc_of_shr_record mrs)) as [->|[-> _]]; lia).
  pose proof (shr_nonneg (shr_record_of_loc m1 loc_Exact) e'
                (fexp (Zdigits2 m1 + e') - e') Hm1) as H2.
  destruct (shr _ e' _) as [mrs' e'']. cbn [fst] in H2.
  unfold has_sign. destruct (shr_m mrs') as [|q|q]; [now left| |lia].
  destruct (e'' <=? emax - prec); eauto.
Qed.

(** The rounding of [M * 2 ^ e]: the mantissa is taken to the exponent [E]
    of the format, downwards or, when bits are lost, possibly upwards. *)
Lemma binary_round_spec (s : bool) (M : positive) (e : Z) :
  let E := fexp (Zpos (digits2_pos M) + e) in
  let ez := Z.min e E in
  let mz := Zpos M * 2 ^ (e - ez) in
  exists m1,
    (m1 = mz / 2 ^ (E - ez)
     \/ (m1 = mz / 2 ^ (E - ez) + 1 /\ mz mod 2 ^ (E - ez) <> 0))
    /\ binary_round prec emax s M e = assemble s m1 E.
Proof.
  intros E ez mz. unfold binary_round.
  destruct (shl_align_spec M e E) as [Hsnd Hfst]. fold E.
  destruct (shl_align M e E) as [m' e']. cbn [fst snd] in Hsnd, Hfst.
  fold ez in Hsnd, Hfst. subst e'. fold mz in Hfst.
  assert (Hdig : Zpos (digits2_pos m') + ez = Zpos (digits2_pos M) + e).
  { assert (Zpos m' * 2 ^ 0 = Zpos M * 2 ^ (e - ez))
      by (rewrite Hfst; unfold mz; cbn; lia).
    pose proof (digits_scaled_le m' M 0 (e - ez)).
    pose proof (digits_scaled_le M m' (e - ez) 0). lia. }
  unfold binary_round_aux, shr_fexp. cbn [Zdigits2 shr_record_of_loc].
  rewrite Hdig. fold E.
  assert (Hn : 0 <= E - ez) by lia.
  destruct (shr_exact (Zpos m') ez (E - ez)) as (He & Hm & Hloc); [lia|lia|].
  destruct (shr (Build_shr_record (Zpos m') false false) ez (E - ez))
    as [mrs e']. cbn [fst snd] in He, Hm, Hloc.
  replace e' with E by lia. rewrite Hfst in Hm, Hloc.
  set (m1 := round_nearest_even (shr_m mrs) (loc_of_shr_record mrs)).
  assert (Hm1 : m1 = mz / 2 ^ (E - ez)
                \/ (m1 = mz / 2 ^ (E - ez) + 1 /\ mz mod 2 ^ (E - ez) <> 0)).
  { unfold m1.
    destruct (round_nearest_even_spec (shr_m mrs) (loc_of_shr_record mrs))
      as [->|[-> Hl]]; [left; exact Hm|right].
    split; [now rewrite Hm|]. intros Hz. apply Hl, Hloc, Hz. }
  exists m1. split; [exact Hm1|].
  apply second_shift; [|unfold E, SpecFloat.fexp; lia].
  assert (Hpow : 0 < 2 ^ (E - ez)) by (apply two_power_positive; lia).
  assert (Hq : 0 <= mz / 2 ^ (E - ez) < 2 ^ prec).
  { split; [apply Z.div_pos; [unfold mz|]; try lia;
            pose proof (two_power_positive (e - ez)); nia|].
    apply Z.div_lt_upper_bound; [lia|].
    rewrite <- Z.pow_add_r by lia.
    destruct (digits2_pos_bounds m') as [_ U]. rewrite Hfst in U.
    apply Z.lt_le_trans with (1 := U).
    apply Z.pow_le_mono_r; [lia|]. unfold E, SpecFloat.fexp in *. lia. }
  lia.
Qed.

(** The order of the results of a rounding relative to a number of the
    format, [mx * 2 ^ ex], as [SFcompare] reads it: by exponent, then by
    mantissa. *)
Definition at_least (s : bool) (mx : positive) (ex : Z) (r : spec_float) : Prop :=
  r = S754_infinity s
  \/ exists m e, r = S754_finite s m e
                 /\ (ex < e \/ (e = ex /\ Zpos mx <= Zpos m)).

Definition at_most (s : bool) (mx : positive) (ex : Z) (r : spec_float) : Prop :=
  r = S754_zero s
  \/ exists m e, r = S754_finite s m e
                 /\ (e < ex \/ (e = ex /\ Zpos m <= Zpos mx)).

Lemma bounded_spec (mx : positive) (ex : Z) :
  bounded prec emax mx ex = true ->
  fexp (Zpos (digits2_pos mx) + ex) = ex /\ ex <= emax - prec.
Proof.
  unfold bounded, canonical_mantissa. intros H.
  apply andb_true_iff in H. destruct H as [H1 H2].
  apply Z.eqb_eq in H1. apply Z.leb_le in H2. now split.
Qed.

(** Rounding is monotone at the numbers of the format, from below... *)
Lemma round_at_least (s : bool) (mx : positive) (ex : Z) (M : positive) (e : Z) :
  bounded prec emax mx ex = true -> e <= ex ->
  Zpos mx * 2 ^ (ex - e) <= Zpos M ->
  at_least s mx ex (binary_round prec emax s M e).
Proof.
  intros Hb He Hle. destruct (bounded_spec mx ex Hb) as [Hcan Hmax].
  destruct (binary_round_spec s M e) as [m1 [Hm1 ->]].
  set (E := fexp (Zpos (digits2_pos M) + e)) in *.
  set (ez := Z.min e E) in *.
  set (mz := Zpos M * 2 ^ (e - ez)) in *.
  assert (Hdig : Zpos (digits2_pos mx) + (ex - e) <= Zpos (digits2_pos M) + 0).
  { apply digits_scaled_le; [lia|lia|]. rewrite Z.pow_0_r, Z.mul_1_r. exact Hle. }
  assert (HE : ex <= E) by (unfold E, SpecFloat.fexp in *; lia).
  assert (Hez : ez <= e /\ ez <= E) by lia.
  assert (Hpn : 0 < 2 ^ (E - ez)) by (apply two_power_positive; lia).
  assert (Hp1 : 0 < 2 ^ (prec - 1)) by (apply two_power_positive; lia).
  assert (Hpp : 2 ^ prec = 2 * 2 ^ (prec - 1)).
  { replace prec with (prec - 1 + 1) at 1 by lia.
    rewrite Z.pow_add_r by lia. change (2 ^ 1) with 2. lia. }
  assert (Hm0 : (E = ex /\ Zpos mx <= mz / 2 ^ (E - ez))
                \/ (ex < E /\ 1 <= mz / 2 ^ (E - ez))).
  { destruct (Z.eq_dec E ex) as [Heq|Hne]; [left|right]; (split; [lia|]).
    - apply Z.div_le_lower_bound; [lia|]. unfold mz.
      replace (E - ez) with ((ex - e) + (e - ez)) by lia.
      rewrite Z.pow_add_r by lia.
      pose proof (two_power_positive (e - ez)).
      hide_powers. nia.
    - apply Z.le_trans with (2 ^ (prec - 1)); [lia|].
      apply Z.div_le_lower_bound; [lia|]. unfold mz.
      rewrite <- Z.pow_add_r by lia.
      destruct (digits2_pos_bounds M) as [L _].
      apply Z.le_trans with (2 ^ (Zpos (digits2_pos M) - 1) * 2 ^ (e - ez)).
      + rewrite <- Z.pow_add_r by lia. apply Z.pow_le_mono_r; [lia|].
        unfold E, SpecFloat.fexp in *. lia.
      + pose proof (two_power_positive (e - ez)). hide_powers. nia. }
  unfold assemble, at_least.
  destruct (Z.eqb_spec m1 0) as [Hz|Hnz]; [lia|].
  destruct (Z.ltb_spec m1 (2 ^ prec)) as [Hlt|Hge].
  - destruct (E <=? emax - prec); [right|now left].
    exists (Z.to_pos m1), E. split; [reflexivity|].
    rewrite Z2Pos.id by lia. lia.
  - destruct (E + 1 <=? emax - prec); [right|now left].
    exists (Z.to_pos (2 ^ (prec - 1))), (E + 1). split; [reflexivity|]. lia.
Qed.

(** ... and from above. *)
Lemma round_at_most (s : bool) (mx : positive) (ex : Z) (M : positive) (e : Z) :
  bounded prec emax mx ex = true -> e <= ex ->
  Zpos M <= Zpos mx * 2 ^ (ex - e) ->
  at_most s mx ex (binary_round prec emax s M e).
Proof.
  intros Hb He Hle. destruct (bounded_spec mx ex Hb) as [Hcan Hmax].
  destruct (binary_round_spec s M e) as [m1 [Hm1 ->]].
  set (E := fexp (Zpos (digits2_pos M) + e)) in *.
  set (ez := Z.min e E) in *.
  set (mz := Zpos M * 2 ^ (e - ez)) in *.
  assert (Hdig : Zpos (digits2_pos M) + 0 <= Zpos (digits2_pos mx) + (ex - e)).
  { apply digits_scaled_le; [lia|lia|]. rewrite Z.pow_0_r, Z.mul_1_r. exact Hle. }
  assert (HE : E <= ex) by (unfold E, SpecFloat.fexp in *; lia).
  assert (Hez : ez <= e /\ ez <= E) by lia.
  assert (Hpn : 0 < 2 ^ (E - ez)) by (apply two_power_positive; lia).
  assert (Hp1 : 0 < 2 ^ (prec - 1)) by (apply two_power_positive; lia).
  assert (Hpp : 2 ^ prec = 2 * 2 ^ (prec - 1)).
  { replace prec with (prec - 1 + 1) at 1 by lia.
    rewrite Z.pow_add_r by lia. change (2 ^ 1) with 2. lia. }
  assert (Hmx : Zpos mx < 2 ^ prec).
  { destruct (digits2_pos_bounds mx) as [_ U].
    apply Z.lt_le_trans with (1 := U). apply Z.pow_le_mono_r; [lia|].
    unfold SpecFloat.fexp in Hcan. lia. }
  set (K := Zpos mx * 2 ^ (ex - E)).
  assert (HK : mz <= K * 2 ^ (E - ez)).
  { unfold mz, K. rewrite <- Z.mul_assoc, <- Z.pow_add_r by lia.
    replace (ex - E + (E - ez)) with ((ex - e) + (e - ez)) by lia.
    rewrite Z.pow_add_r by lia.
    pose proof (two_power_positive (e - ez)). hide_powers. nia. }
  assert (Hmz : 0 < mz).
  { unfold mz. pose proof (two_power_positive (e - ez)). hide_powers. nia. }
  assert (Hm1K : 0 <= m1 <= K).
  { pose proof (Z.div_mod mz (2 ^ (E - ez))) as Hdm.
    pose proof (Z.mod_pos_bound mz (2 ^ (E - ez)) Hpn) as Hmod.
    assert (0 <= mz / 2 ^ (E - ez)) by (apply Z.div_pos; lia).
    destruct Hm1 as [->|[-> Hinexact]]; (split; [lia|]).
    - apply Z.div_le_upper_bound; [lia|]. lia.
    - specialize (Hdm ltac:(lia)).
      generalize dependent (mz / 2 ^ (E - ez)).
      generalize dependent (mz mod 2 ^ (E - ez)).
      intros r Hr Hpos q Hq Hq0. hide_powers. nia. }
  unfold assemble, at_most.
  destruct (Z.eqb_spec m1 0) as [Hz|Hnz]; [now left|right].
  destruct (Z.ltb_spec m1 (2 ^ prec)) as [Hlt|Hge].
  - destruct (Z.leb_spec E (emax - prec)) as [_|Hover]; [|lia].
    exists (Z.to_pos m1), E. split; [reflexivity|].
    rewrite Z2Pos.id by lia.
    destruct (Z.eq_dec E ex) as [Heq|Hne]; [right|left; lia].
    split; [exact Heq|]. unfold K in Hm1K. rewrite Heq, Z.sub_diag in Hm1K.
    cbn in Hm1K. lia.
  - assert (Hstep : E + 1 <= ex).
    { destruct (Z.eq_dec E ex) as [Heq|Hne]; [|lia].
      unfold K in Hm1K. rewrite Heq, Z.sub_diag in Hm1K. cbn in Hm1K. lia. }
    destruct (Z.leb_spec (E + 1) (emax - prec)) as [_|Hover]; [|lia].
    exists (Z.to_pos (2 ^ (prec - 1))), (E + 1). split; [reflexivity|].
    rewrite Z2Pos.id by lia.
    destruct (Z.eq_dec (E + 1) ex) as [Heq|Hne]; [right|left; lia].
    split; [exact Heq|]. unfold K in Hm1K.
    replace (ex - E) with 1 in Hm1K by lia. change (2 ^ 1) with 2 in Hm1K.
    lia.
Qed.

Lemma binary_round_sign (s : bool) (M : positive) (e : Z) :
  has_sign s (binary_round prec emax s M e).
Proof.
  unfold binary_round. destruct (shl_align M e _) as [mz ez].
  apply binary_round_aux_sign. lia.
Qed.

(** The comparisons these orders decide. *)
Lemma compare_not_gt (a b : positive) :
  Zpos a <= Zpos b ->
  Pos.compare_cont Eq a b = Lt \/ Pos.compare_cont Eq a b = Eq.
Proof.
  intros H. change (Pos.compare_cont Eq a b) with (a ?= b)%positive.
  destruct (Pos.compare_spec a b); [now right|now left|lia].
Qed.

Lemma compare_not_lt (a b : positive) :
  Zpos b <= Zpos a ->
  Pos.compare_cont Eq a b = Gt \/ Pos.compare_cont Eq a b = Eq.
Proof.
  intros H. change (Pos.compare_cont Eq a b) with (a ?= b)%positive.
  destruct (Pos.compare_spec a b); [now right|lia|now left].
Qed.

Lemma at_least_positive (mx : positive) (ex : Z) (r : spec_float) :
  at_least false mx ex r -> SFleb (S754_finite false mx ex) r = true.
Proof.
  intros [->|(m & e & -> & [Hlt|[-> Hm]])]; unfold SFleb, SFcompare.
  - reflexivity.
  - apply Z.compare_lt_iff in Hlt. now rewrite Hlt.
  - rewrite Z.compare_refl. now destruct (compare_not_gt mx m Hm) as [->| ->].
Qed.

Lemma at_least_negative (mx : positive) (ex : Z) (r : spec_float) :
  at_least true mx ex r -> SFleb r (S754_finite true mx ex) = true.
Proof.
  intros [->|(m & e & -> & [Hlt|[-> Hm]])]; unfold SFleb, SFcompare.
  - reflexivity.
  - apply Z.compare_gt_iff in Hlt. now rewrite Hlt.
  - rewrite Z.compare_refl. now destruct (compare_not_lt m mx Hm) as [->| ->].
Qed.

Lemma at_most_positive (mx : positive) (ex : Z) (r : spec_float) :
  at_most false mx ex r -> SFleb r (S754_finite false mx ex) = true.
Proof.
  intros [->|(m & e & -> & [Hlt|[-> Hm]])]; unfold SFleb, SFcompare.
  - reflexivity.
  - apply Z.compare_lt_iff in Hlt. now rewrite Hlt.
  - rewrite Z.compare_refl. now destruct (compare_not_gt m mx Hm) as [->| ->].
Qed.

Lemma at_most_negative (mx : positive) (ex : Z) (r : spec_float) :
  at_most true mx ex r -> SFleb (S754_finite true mx ex) r = true.
Proof.
  intros [->|(m & e & -> & [Hlt|[-> Hm]])]; unfold SFleb, SFcompare.
  - reflexivity.
  - apply Z.compare_gt_iff in Hlt. now rewrite Hlt.
  - rewrite Z.compare_refl. now destruct (compare_not_lt mx m Hm) as [->| ->].
Qed.

Lemma sign_above_negative (mx : positive) (ex : Z) (r : spec_float) :
  has_sign false r -> SFleb (S754_finite true mx ex) r = true.
Proof. intros [->|[->|(m & e & ->)]]; reflexivity. Qed.

Lemma sign_below_positive (mx : positive) (ex : Z) (r : spec_float) :
  has_sign true r -> SFleb r (S754_finite false mx ex) = true.
Proof. intros [->|[->|(m & e & ->)]]; reflexivity. Qed.

Lemma SFleb_refl_finite (s : bool) (m : positive) (e : Z) :
  SFleb (S754_finite s m e) (S754_finite s m e) = true.
Proof.
  unfold SFleb, SFcompare. rewrite Z.compare_refl.
  change (Pos.compare_cont Eq m m) with (m ?= m)%positive.
  rewrite Pos.compare_refl. now destruct s.
Qed.

(** Zero or a finite number. *)
Definition SFfinite (x : spec_float) : Prop :=
  match x with
  | S754_zero _ | S754_finite _ _ _ => True
  | _ => False
  end.

Lemma aligned_mantissa (m : positive) (e e' : Z) :
  Zpos (fst (shl_align m e (Z.min e e'))) = Zpos m * 2 ^ (e - Z.min e e').
Proof.
  destruct (shl_align_spec m e (Z.min e e')) as [_ H].
  rewrite H. replace (Z.min e (Z.min e e')) with (Z.min e e') by lia.
  reflexivity.
Qed.

Lemma aligned_mantissa_r (m : positive) (e e' : Z) :
  Zpos (fst (shl_align m e (Z.min e' e))) = Zpos m * 2 ^ (e - Z.min e' e).
Proof. rewrite (Z.min_comm e' e). apply aligned_mantissa. Qed.

(** Taking a number that is not negative away from a finite number of the
    format gives no more, and adding it gives no less, after rounding. *)
Theorem SFsub_SFadd_enclose (x h : spec_float) :
  SpecFloat.valid_binary prec emax x = true -> SFfinite x ->
  SFleb (S754_zero false) h = true ->
  SFleb (SFsub prec emax x h) x = true
  /\ SFleb x (SFadd prec emax x h) = true.
Proof.
  intros Hvalid Hfin Hh.
  destruct h as [sh|sh| |sh mh eh]; try discriminate Hh.
  - (* a zero *)
    destruct x as [sx|sx| |sx mx ex]; try contradiction.
    + destruct sx, sh; split; reflexivity.
    + split; apply SFleb_refl_finite.
  - (* an infinity *)
    destruct sh; [discriminate Hh|].
    destruct x as [sx|sx| |sx mx ex]; try contradiction;
      split; try reflexivity; now destruct sx.
  - (* a finite number *)
    destruct sh; [discriminate Hh|].
    destruct x as [sx|sx| |sx mx ex]; try contradiction.
    + split; reflexivity.
    + cbn [SpecFloat.valid_binary] in Hvalid.
      cbn [SFsub SFadd]. unfold binary_normalize.
      rewrite aligned_mantissa, aligned_mantissa_r.
      set (ez := Z.min ex eh).
      set (X := Zpos mx * 2 ^ (ex - ez)).
      set (H := Zpos mh * 2 ^ (eh - ez)).
      assert (Hez : ez <= ex) by (unfold ez; lia).
      assert (Hez' : ez <= eh) by (unfold ez; lia).
      assert (HX : 0 < X).
      { unfold X. pose proof (two_power_positive (ex - ez)).
        assert (0 <= ex - ez) by lia. hide_powers. nia. }
      assert (HH : 0 < H).
      { unfold H. pose proof (two_power_positive (eh - ez)).
        assert (0 <= eh - ez) by lia. hide_powers. nia. }
      destruct sx; cbn [cond_Zopp]; split.
      * (* -X - H *)
        destruct (- X - H) as [|M|M] eqn:HD; [lia|lia|].
        apply at_least_negative, round_at_least; [exact Hvalid|exact Hez|].
        fold X. lia.
      * (* -X + H *)
        destruct (- X + H) as [|M|M] eqn:HD.
        -- reflexivity.
        -- apply sign_above_negative, binary_round_sign.
        -- apply at_most_negative, round_at_most; [exact Hvalid|exact Hez|].
           fold X. lia.
      * (* X - H *)
        destruct (X - H) as [|M|M] eqn:HD.
        -- reflexivity.
        -- apply at_most_positive, round_at_most; [exact Hvalid|exact Hez|].
           fold X. lia.
        -- apply sign_below_positive, binary_round_sign.
      * (* X + H *)
        destruct (X + H) as [|M|M] eqn:HD; [lia| |lia].
        apply at_least_positive, round_at_least; [exact Hvalid|exact Hez|].
        fold X. lia.
Qed.

(** Products and quotients of numbers that are not negative. *)
Lemma has_sign_nonneg (r : spec_float) :
  has_sign false r -> SFleb (S754_zero false) r = true.
Proof. intros [->|[->|(m & e & ->)]]; reflexivity. Qed.

Lemma SFmul_nonneg (x y : spec_float) :
  SFfinite x -> SFfinite y ->
  SFleb (S754_zero false) x = true -> SFleb (S754_zero false) y = true ->
  SFleb (S754_zero false) (SFmul prec emax x y) = true.
Proof.
  destruct x as [sx|sx| |sx mx ex], y as [sy|sy| |sy my ey];
    cbn [SFfinite]; try contradiction; intros _ _ Hx Hy; cbn [SFmul];
    try reflexivity.
  destruct sx; [discriminate Hx|]. destruct sy; [discriminate Hy|].
  apply has_sign_nonneg, binary_round_aux_sign. lia.
Qed.

Lemma SFdiv_nonneg (x y : spec_float) :
  SFleb (S754_zero false) x = true -> SFltb (S754_zero false) y = true ->
  SFfinite (SFdiv prec emax x y) ->
  SFleb (S754_zero false) (SFdiv prec emax x y) = true.
Proof.
  destruct x as [sx|sx| |sx mx ex], y as [sy|sy| |sy my ey];
    try discriminate; intros Hx Hy; cbn [SFdiv SFfinite];
    try contradiction; try reflexivity; intros _.
  destruct sx; [discriminate Hx|]. destruct sy; [discriminate Hy|].
  unfold SFdiv_core_binary.
  set (shift := _ - _ - Z.min _ _).
  set (m' := match shift with Z0 => _ | Zpos _ => _ | Zneg _ => _ end).
  assert (Hm' : 0 <= m').
  { unfold m'. destruct shift; [lia| |lia]. apply Z.shiftl_nonneg. lia. }
  assert (Hq : 0 <= fst (Z.div_eucl m' (Zpos my))).
  { change (fst (Z.div_eucl m' (Zpos my))) with (m' / Zpos my).
    apply Z.div_pos; lia. }
  destruct (Z.div_eucl m' (Zpos my)) as [q r]. cbn [fst] in Hq.
  apply has_sign_nonneg, binary_round_aux_sign. exact Hq.
Qed.

(** The rounding of a mantissa that comes with a location, as the quotient
    does. *)
Lemma shr_general (r0 : shr_record) (e n : Z) :
  0 <= shr_m r0 ->
  snd (shr r0 e n) = e + Z.max n 0
  /\ shr_m (fst (shr r0 e n)) = shr_m r0 / 2 ^ Z.max n 0.
Proof.
  intros H0. unfold shr. destruct n as [|p|p]; cbn [fst snd].
  - change (Z.max 0 0) with 0. rewrite Z.pow_0_r, Z.div_1_r. lia.
  - replace (Z.max (Zpos p) 0) with (Zpos p) by lia. split; [reflexivity|].
    pose (P := fun k x => 0 <= shr_m x /\ shr_m x = shr_m r0 / 2 ^ k).
    assert (H : P (0 + Zpos p) (iter_pos shr_1 p r0)).
    { apply iter_pos_invariant; [|lia|].
      - intros k x Hk (Hx & Hdiv).
        destruct (shr_1_spec x Hx) as (E1 & _).
        pose proof (two_power_positive k Hk) as Hpow.
        unfold P. rewrite E1, Hdiv.
        split; [apply Z.div_pos; [apply Z.div_pos|]; lia|].
        rewrite Z.pow_add_r, Z.div_div by lia. reflexivity.
      - unfold P. rewrite Z.pow_0_r, Z.div_1_r. lia. }
    destruct H as [_ H]. rewrite Z.add_0_l in H. exact H.
  - replace (Z.max (Zneg p) 0) with 0 by lia.
    rewrite Z.pow_0_r, Z.div_1_r. lia.
Qed.

Lemma Zdigits2_bound (m : Z) : 0 <= m -> m < 2 ^ Zdigits2 m.
Proof.
  destruct m as [|p|p]; intros H; [reflexivity| |lia].
  apply digits2_pos_bounds.
Qed.

Lemma binary_round_aux_spec (s : bool) (m e : Z) (l : location) :
  0 <= m ->
  let n := Z.max (fexp (Zdigits2 m + e) - e) 0 in
  exists m1,
    (m1 = m / 2 ^ n
     \/ (m1 = m / 2 ^ n + 1 /\ (l = loc_Exact -> m mod 2 ^ n <> 0)))
    /\ binary_round_aux prec emax s m e l = assemble s m1 (e + n).
Proof.
  intros Hm n. unfold binary_round_aux, shr_fexp.
  set (raw := fexp (Zdigits2 m + e) - e) in *.
  assert (H0 : 0 <= shr_m (shr_record_of_loc m l))
    by (destruct l as [|[| |]]; exact Hm).
  destruct (shr_general (shr_record_of_loc m l) e raw H0) as [He Hq].
  assert (Hloc : l = loc_Exact -> m mod 2 ^ n = 0 ->
                 loc_of_shr_record (fst (shr (shr_record_of_loc m l) e raw))
                 = loc_Exact).
  { intros -> Hmod. cbn [shr_record_of_loc].
    destruct (Z.le_gt_cases 0 raw) as [Hraw|Hraw].
    - apply (shr_exact m e raw Hm Hraw).
      now replace raw with n by (unfold n; lia).
    - unfold shr. destruct raw; [reflexivity|lia|reflexivity]. }
  destruct (shr (shr_record_of_loc m l) e raw) as [mrs e1].
  cbn [fst snd] in He, Hq, Hloc. fold n in He, Hq.
  replace (shr_m (shr_record_of_loc m l)) with m in Hq
    by (destruct l as [|[| |]]; reflexivity).
  set (m1 := round_nearest_even (shr_m mrs) (loc_of_shr_record mrs)).
  assert (Hm1 : m1 = m / 2 ^ n
                \/ (m1 = m / 2 ^ n + 1
                    /\ (l = loc_Exact -> m mod 2 ^ n <> 0))).
  { unfold m1.
    destruct (round_nearest_even_spec (shr_m mrs) (loc_of_shr_record mrs))
      as [->|[-> Hl]]; [left; exact Hq|right].
    split; [now rewrite Hq|]. intros HlE Hz. now apply Hl, Hloc. }
  exists m1. split; [exact Hm1|]. subst e1.
  assert (Hn : 0 <= n) by (unfold n; lia).
  pose proof (two_power_positive n Hn) as Hpow.
  apply second_shift; [|unfold n, raw, SpecFloat.fexp; lia].
  assert (Hq0 : 0 <= m / 2 ^ n < 2 ^ prec).
  { split; [apply Z.div_pos; lia|].
    apply Z.div_lt_upper_bound; [lia|].
    rewrite <- Z.pow_add_r by lia.
    apply Z.lt_le_trans with (1 := Zdigits2_bound m Hm).
    assert (0 <= Zdigits2 m) by (destruct m; cbn; lia).
    apply Z.pow_le_mono_r; [lia|]. unfold n, raw, SpecFloat.fexp. lia. }
  lia.
Qed.

(** A number of the format, not negative, divided by a number that is at
    least 1 stays finite. *)
Lemma SFdiv_finite (mx : positive) (ex : Z) (my : positive) (ey : Z) :
  bounded prec emax mx ex = true ->
  0 <= ey \/ 2 ^ (- ey) <= Zpos my ->
  SFfinite (SFdiv prec emax (S754_finite false mx ex)
                            (S754_finite false my ey)).
Proof.
  intros Hb Hy. destruct (bounded_spec mx ex Hb) as [Hcan Hmax].
  cbn [SFdiv xorb]. unfold SFdiv_core_binary. cbn [Zdigits2].
  set (d1 := Zpos (digits2_pos mx)) in *.
  set (d2 := Zpos (digits2_pos my)).
  set (e' := Z.min (fexp (d1 + ex - (d2 + ey))) (ex - ey)).
  assert (Hd2 : 1 <= d2 + ey).
  { destruct Hy as [Hy|Hy]; [unfold d2; lia|].
    destruct (Z.le_gt_cases 0 ey) as [|Hneg]; [unfold d2; lia|].
    destruct (digits2_pos_bounds my) as [_ U]. fold d2 in U.
    assert (Hlt : 2 ^ (- ey) < 2 ^ d2) by lia.
    apply two_power_lt in Hlt; unfold d2 in *; lia. }
  assert (He' : e' <= ex /\ e' <= ex - ey /\ emin <= ex)
    by (unfold e', SpecFloat.fexp in *; lia).
  set (shift := ex - ey - e').
  assert (Hshift : 0 <= shift) by (unfold shift; lia).
  set (m' := match shift with
             | Z0 => Zpos mx | Zpos _ => Z.shiftl (Zpos mx) shift
             | Zneg _ => 0 end).
  assert (Hm' : m' = Zpos mx * 2 ^ shift).
  { unfold m'. destruct shift as [|p|p] eqn:Hs; [cbn; lia| |lia].
    apply Z.shiftl_mul_pow2. lia. }
  clearbody m'.
  pose proof (Z.div_mod m' (Zpos my) ltac:(lia)) as Hdm.
  pose proof (Z.mod_pos_bound m' (Zpos my) ltac:(lia)) as Hr.
  assert (Hqr : Z.div_eucl m' (Zpos my) = (m' / Zpos my, m' mod Zpos my)).
  { unfold Z.div, Z.modulo. now destruct (Z.div_eucl m' (Zpos my)). }
  rewrite Hqr.
  set (q := m' / Zpos my) in *. set (r := m' mod Zpos my) in *.
  assert (Hq : 0 <= q).
  { unfold q. apply Z.div_pos; [|lia]. rewrite Hm'.
    pose proof (two_power_positive shift Hshift). hide_powers. nia. }
  set (a := ex - e').
  assert (Ha : 0 <= a /\ a = shift + ey) by (unfold a, shift; lia).
  (* the quotient is at most the dividend *)
  assert (Hbound : q <= Zpos mx * 2 ^ a
                   /\ (r <> 0 -> q < Zpos mx * 2 ^ a)).
  { pose proof (two_power_positive shift Hshift) as Hps.
    destruct (Z.le_gt_cases 0 ey) as [Hpos|Hneg].
    - replace a with (shift + ey) by lia. rewrite Z.pow_add_r by lia.
      pose proof (two_power_positive ey Hpos) as Hpe.
      rewrite Hm' in Hdm. hide_powers. split; [nia|intros; nia].
    - destruct Hy as [Hy|Hy]; [lia|].
      assert (Hsplit : 2 ^ shift = 2 ^ a * 2 ^ (- ey)).
      { rewrite <- Z.pow_add_r by lia. f_equal. lia. }
      pose proof (two_power_positive a ltac:(lia)) as Hpa.
      pose proof (two_power_positive (- ey) ltac:(lia)) as Hpe.
      rewrite Hm', Hsplit in Hdm. hide_powers. split; [nia|intros; nia]. }
  destruct Hbound as [Hle Hlt].
  destruct (binary_round_aux_spec false q e' (new_location (Zpos my) r) Hq)
    as [m1 [Hm1 ->]].
  set (n := Z.max (fexp (Zdigits2 q + e') - e') 0) in *.
  assert (Hn : 0 <= n) by (unfold n; lia).
  assert (He1 : e' + n <= ex).
  { assert (fexp (Zdigits2 q + e') <= ex); [|unfold n; lia].
    destruct q as [|qp|qp]; [| |lia].
    - cbn [Zdigits2]. unfold SpecFloat.fexp in *. lia.
    - cbn [Zdigits2].
      assert (Zpos (digits2_pos qp) + 0 <= d1 + a).
      { apply digits_scaled_le; [lia|lia|]. rewrite Z.pow_0_r. lia. }
      unfold SpecFloat.fexp in *. lia. }
  pose proof (two_power_positive n Hn) as Hpn.
  set (K := Zpos mx * 2 ^ (ex - (e' + n))).
  assert (HK : Zpos mx * 2 ^ a = K * 2 ^ n).
  { unfold K. rewrite <- Z.mul_assoc, <- Z.pow_add_r by lia.
    f_equal. f_equal. unfold a. lia. }
  assert (Hm1K : 0 <= m1 <= K).
  { pose proof (Z.div_mod q (2 ^ n) ltac:(lia)) as Hdq.
    pose proof (Z.mod_pos_bound q (2 ^ n) Hpn) as Hmq.
    assert (0 <= q / 2 ^ n) by (apply Z.div_pos; lia).
    rewrite HK in Hle, Hlt.
    destruct Hm1 as [->|[-> Hinexact]]; (split; [lia|]).
    - apply Z.div_le_upper_bound; [lia|]. lia.
    - assert (Hcases : q mod 2 ^ n <> 0 \/ r <> 0).
      { destruct (Z.eq_dec r 0) as [Hr0|Hr0]; [left|now right].
        apply Hinexact. rewrite Hr0. unfold new_location.
        destruct (Z.even (Zpos my)); reflexivity. }
      set (quo := q / 2 ^ n) in *. set (rem := q mod 2 ^ n) in *.
      clearbody quo rem.
      destruct Hcases as [Hc|Hc]; [|specialize (Hlt Hc)];
        hide_powers; nia. }
  assert (Hmx : Zpos mx < 2 ^ prec).
  { destruct (digits2_pos_bounds mx) as [_ U]. fold d1 in U.
    apply Z.lt_le_trans with (1 := U). apply Z.pow_le_mono_r; [lia|].
    unfold SpecFloat.fexp in Hcan. lia. }
  unfold assemble.
  destruct (Z.eqb_spec m1 0) as [Hz|Hnz]; [exact I|].
  destruct (Z.ltb_spec m1 (2 ^ prec)) as [Hlt1|Hge].
  - destruct (Z.leb_spec (e' + n) (emax - prec)) as [_|Hover]; [exact I|lia].
  - assert (Hstep : e' + n + 1 <= ex).
    { destruct (Z.eq_dec (e' + n) ex) as [Heq|Hne]; [|lia].
      unfold K in Hm1K. rewrite Heq, Z.sub_diag, Z.pow_0_r in Hm1K. lia. }
    destruct (Z.leb_spec (e' + n + 1) (emax - prec)) as [_|Hover];
      [exact I|lia].
Qed.

(** The cases of a quotient of a finite number that is not negative by a
    number that is at least 1, infinite or not. *)
Lemma SFdiv_finite_cases (x y : spec_float) :
  SpecFloat.valid_binary prec emax x = true -> SFfinite x ->
  SFleb (S754_zero false) x = true ->
  (match y with
   | S754_infinity false => True
   | S754_finite false my ey => 0 <= ey \/ 2 ^ (- ey) <= Zpos my
   | _ => False
   end) ->
  SFfinite (SFdiv prec emax x y).
Proof.
  intros Hvalid Hfin Hx Hy.
  destruct x as [sx|sx| |sx mx ex]; try contradiction;
    destruct y as [sy|[|]| |[|] my ey]; try contradiction; try exact I.
  destruct sx; [discriminate Hx|]. now apply SFdiv_finite.
Qed.
End Rounding.

(** On binary64, through the specification of the primitive operations. *)
Section EnclosureBinary64.
Local Open Scope float_scope.

Lemma finite_spec (x : float) : is_finite x = true -> SFfinite (Prim2SF x).
Proof.
  unfold is_finite. intros H. apply negb_true_iff in H.
  change (is_nan x || is_infinity x)%bool with (not_finite x) in H.
  destruct (Prim2SF x) as [s|s| |s m e] eqn:E; cbn; auto.
  - assert (not_finite x = true) by (apply not_finite_spec; right; eauto).
    congruence.
  - assert (not_finite x = true) by (apply not_finite_spec; now left).
    congruence.
Qed.

Lemma finite_of_spec (x : float) : SFfinite (Prim2SF x) -> is_finite x = true.
Proof.
  intros H. unfold is_finite. apply negb_true_iff.
  change (is_nan x || is_infinity x)%bool with (not_finite x).
  destruct (not_finite x) eqn:E; [|reflexivity].
  apply not_finite_spec in E. destruct E as [E|[s E]]; rewrite E in H;
    contradiction.
Qed.

Lemma leb_refl_finite (x : float) : is_finite x = true -> (x <=? x) = true.
Proof.
  intros H. apply finite_spec in H. rewrite leb_spec.
  destruct (Prim2SF x) as [s|s| |s m e]; try contradiction;
    [reflexivity|apply SFleb_refl_finite].
Qed.

(** [x - h <= x <= x + h] for a finite [x] and [h >= 0], infinite or not. *)
Lemma enclose_binary64 (x h : float) :
  is_finite x = true -> (0 <=? h) = true ->
  (x - h <=? x) = true /\ (x <=? x + h) = true.
Proof.
  intros Hx Hh. rewrite !leb_spec, sub_spec, add_spec.
  rewrite leb_spec in Hh.
  apply (SFsub_SFadd_enclose prec emax);
    [reflexivity|apply Prim2SF_valid|now apply finite_spec|exact Hh].
Qed.

Lemma mul_nonneg_binary64 (x y : float) :
  is_finite x = true -> is_finite y = true ->
  (0 <=? x) = true -> (0 <=? y) = true -> (0 <=? x * y) = true.
Proof.
  intros Fx Fy Hx Hy. rewrite leb_spec in *. rewrite mul_spec.
  apply SFmul_nonneg; auto using finite_spec.
Qed.

Lemma div_nonneg_binary64 (x y : float) :
  (0 <=? x) = true -> (0 <? y) = true -> is_finite (x / y) = true ->
  (0 <=? x / y) = true.
Proof.
  intros Hx Hy F. apply finite_spec in F.
  rewrite leb_spec in *. rewrite ltb_spec in Hy. rewrite div_spec in *.
  now apply SFdiv_nonneg.
Qed.

Lemma at_least_one_spec (y : float) :
  (1 <=? y) = true ->
  match Prim2SF y with
  | S754_infinity false => True
  | S754_finite false my ey => (0 <= ey \/ 2 ^ (- ey) <= Zpos my)%Z
  | _ => False
  end.
Proof.
  rewrite leb_spec. pose proof (Prim2SF_valid y) as Hvalid.
  change (Prim2SF 1) with (S754_finite false 4503599627370496 (-52)).
  destruct (Prim2SF y) as [sy|sy| |sy my ey]; try discriminate.
  - now destruct sy.
  - destruct sy; [discriminate|]. intros Hle.
    destruct (bounded_spec prec emax my ey Hvalid) as [Hcan _].
    unfold SpecFloat.fexp, SpecFloat.emin in Hcan.
    change prec with 53%Z in Hcan. change emax with 1024%Z in Hcan.
    unfold SFleb, SFcompare in Hle.
    assert (Hey : (-52 <= ey)%Z /\ (4503599627370496 <= Zpos my)%Z).
    { destruct (Z.compare_spec (-52) ey) as [<-|Hlt|Hgt].
      - split; [lia|].
        change (Pos.compare_cont Eq 4503599627370496 my)
          with (4503599627370496 ?= my)%positive in Hle.
        destruct (Pos.compare_spec 4503599627370496 my); [lia|lia|discriminate].
      - split; [lia|].
        destruct (digits2_pos_bounds my) as [L _].
        replace (Zpos (digits2_pos my) - 1)%Z with 52%Z in L by lia.
        exact L.
      - discriminate. }
    destruct (Z.le_gt_cases 0 ey) as [|Hneg]; [now left|right].
    apply Z.le_trans with (2 ^ 52)%Z; [|exact (proj2 Hey)].
    apply Z.pow_le_mono_r; lia.
Qed.

(** A finite [x >= 0] divided by [y >= 1] is finite. *)
Lemma div_finite_binary64 (x y : float) :
  is_finite x = true -> (0 <=? x) = true -> (1 <=? y) = true ->
  is_finite (x / y) = true.
Proof.
  intros Fx Hx Hy. apply finite_of_spec. rewrite div_spec.
  rewrite leb_spec in Hx.
  apply (SFdiv_finite_cases prec emax);
    [reflexivity|apply Prim2SF_valid|now apply finite_spec|exact Hx|].
  now apply at_least_one_spec.
Qed.

Lemma positive_of_at_least_one (y : float) :
  (1 <=? y) = true -> (0 <? y) = true.
Proof.
  intros H. apply at_least_one_spec in H. rewrite ltb_spec.
  destruct (Prim2SF y) as [sy|[|]| |[|] my ey]; try contradiction;
    reflexivity.
Qed.
End EnclosureBinary64.

(** C4.  On binary64 the interval of [run_simulation] contains the mean,
    [ci_lower <= mean <= ci_upper], whenever the call returns with at least
    one batch and what the libraries return is in range: the mean is finite
    and, for more than one batch, the Student-t value is finite and not
    negative, the standard deviation is finite and not negative, and the
    square root of the batch count is at least 1.  The half-width may
    overflow to infinity. *)
Theorem ci_contains_mean_binary64
        {EN : Encoding float} {EXT : External float}
        (p_list : list float) (k num_simulations numshots : Z)
        (confidence_level : float) :
  p_list <> [] -> (0 <= k)%Z -> (0 < numshots)%Z -> (1 <= num_simulations)%Z ->
  let batches := batch_proportions p_list k num_simulations numshots in
  let t := t_ppf (div (add one confidence_level) (of_int 2))
                 (num_simulations - 1) in
  let s := np_std_ddof1 batches in
  let root := np_sqrt num_simulations in
  is_finite (np_mean batches) = true ->
  ((1 < num_simulations)%Z ->
   is_finite t = true /\ le zero t
   /\ is_finite s = true /\ le zero s /\ le one root) ->
  exists r,
    run_simulation p_list k num_simulations numshots confidence_level = inr r
    /\ le (ci_lower r) (quantum_mean r) /\ le (quantum_mean r) (ci_upper r).
Proof.
  intros _ Hk Hs Hm batches t s root Hmean Hlib.
  eexists. split; [apply run_simulation_returns; [exact Hk|lia]|].
  unfold statistics. fold batches.
  destruct (Z.gtb_spec num_simulations 1) as [Hmany|Hone];
    cbn [ci_lower ci_upper quantum_mean fst snd].
  - destruct (Hlib Hmany) as (Ft & Ht & Fs & Hsd & Hroot).
    pose proof (div_finite_binary64 _ _ Fs Hsd Hroot) as Fse.
    apply enclose_binary64; [exact Hmean|].
    apply mul_nonneg_binary64; [exact Ft|exact Fse|exact Ht|].
    apply div_nonneg_binary64;
      [exact Hsd|now apply positive_of_at_least_one|exact Fse].
  - split; apply leb_refl_finite; exact Hmean.
Qed.

Lemma ci_contains_mean_binary64_witness :
  [0.25%float] <> [] /\ (0 <= 1)%Z /\ (0 < 1)%Z /\ (1 <= 2)%Z
  /\ exists r,
       run_simulation (EXT := recorded [0; 1]%Z) [0.25%float] 1 2 1 0.5%float
       = inr r
       /\ quantum_mean r = 0.5%float
       /\ PrimFloat.leb (ci_lower r) (quantum_mean r) = true
       /\ PrimFloat.leb (quantum_mean r) (ci_upper r) = true.
Proof.
  assert (Hp : [0.25%float] <> []) by discriminate.
  assert (Hk : (0 <= 1)%Z) by discriminate.
  assert (Hs : (0 < 1)%Z) by reflexivity.
  assert (Hm : (1 <= 2)%Z) by discriminate.
  split; [exact Hp|]. split; [exact Hk|]. split; [exact Hs|]. split; [exact Hm|].
  edestruct (ci_contains_mean_binary64
               (EXT := recorded [0; 1]%Z) [0.25%float] 1 2 1 0.5%float
               Hp Hk Hs Hm) as [r [Hr [Hlo Hup]]];
    [vm_compute; reflexivity|intros _; vm_compute; repeat split|].
  exists r. split; [exact Hr|]. split; [|split; [exact Hlo|exact Hup]].
  vm_compute in Hr. injection Hr as <-. reflexivity.
Defined.

(** C4, refuted as stated.  [run_simulation] takes any confidence level: with
    -0.5, one shot per batch and the two batches counting 0 and 1, the quantile
    asked of the Student-t distribution with one degree of freedom is the
    lower quartile, -1.0000000000000002 in scipy, the half-width is negative
    and the bounds are inverted around the mean 0.5. *)
Lemma ci_misses_mean_negative_level :
  exists r,
    run_simulation (EXT := recorded [0; 1]%Z) [0.25%float] 1 2 1 (-0.5)%float
    = inr r
    /\ quantum_mean r = 0.5%float
    /\ ci_lower r = 1%float
    /\ ci_upper r = (-1.1102230246251565e-16)%float
    /\ ~ le (ci_lower r) (quantum_mean r)
    /\ ~ le (quantum_mean r) (ci_upper r).
Proof.
  eexists. split; [vm_compute; reflexivity|].
  repeat split; try (vm_compute; reflexivity);
    intros H; vm_compute in H; discriminate H.
Qed.

(** The conditions of the interval theorem are needed: without a batch the
    mean and the bounds are nan, which no comparison holds of, ... *)
Lemma ci_misses_mean_without_batches :
  exists r,
    run_simulation (EXT := recorded []) [0.25%float] 1 0 1 0.95%float = inr r
    /\ ~ le (ci_lower r) (quantum_mean r)
    /\ ~ le (quantum_mean r) (ci_upper r).
Proof.
  eexists. split; [vm_compute; reflexivity|].
  split; intros H; vm_compute in H; discriminate H.
Qed.

(** ... and at the confidence level 1 the Student-t value is infinite: with
    equal batches the standard error is 0, the half-width [inf * 0] is nan
    and so are both bounds. *)
Lemma ci_misses_mean_at_level_one :
  exists r,
    run_simulation (EXT := recorded [1; 1]%Z) [1%float] 1 2 1 1%float = inr r
    /\ quantum_mean r = 1%float
    /\ ~ le (ci_lower r) (quantum_mean r)
    /\ ~ le (quantum_mean r) (ci_upper r).
Proof.
  eexists. split; [vm_compute; reflexivity|].
  split; [reflexivity|].
  split; intros H; vm_compute in H; discriminate H.
Qed.
